(** * Course navigation and progress tracking of react-on-steroids

    A shallow embedding of the catalog ([lib/course-data.ts]), the chapter
    route ([app/course/[part]/[slug]/page.tsx], in its two versions), the
    chapter view ([components/chapter-content.tsx]) and the sidebar
    ([components/course-sidebar.tsx]), together with the part of the browser
    platform these files call: strings of UTF-16 code units, [JSON.parse],
    [JSON.stringify], [Set], [localStorage] and the [storage] event. *)

From Stdlib Require Import ZArith NArith List String Ascii Bool Lia DecimalString.
From stdpp Require Import base option list gmap.
Import ListNotations.

Open Scope Z_scope.

(** ** Strings

    A JavaScript string is a sequence of UTF-16 code units. *)

Abbreviation jsstring := (list N).

Definition js (s : string) : jsstring :=
  map N_of_ascii (list_ascii_of_string s).

(** A literal in which each apostrophe stands for a quotation mark. *)
Definition jq (s : string) : jsstring :=
  map (fun c => if (c =? 39)%N then 34%N else c) (js s).

(** [a === b] on strings. *)
Definition str_eqb (a b : jsstring) : bool := bool_decide (a = b).

(** [${n}] in a template literal, for the integers the catalog holds. *)
Definition Number_toString (n : Z) : jsstring :=
  js (NilZero.string_of_int (Z.to_int n)).

(** ** The catalog: [lib/course-data.ts] *)

Inductive PartStatus := completed | in_progress | coming_soon.

Record Chapter := mkChapter {
  ch_id : jsstring;
  ch_number : Z;
  ch_title : jsstring;
  ch_slug : jsstring;
  ch_path : jsstring;
  ch_isNew : option bool
}.

Record CoursePart := mkPart {
  part_id : jsstring;
  part_number : Z;
  part_title : jsstring;
  part_description : jsstring;
  part_chapters : list Chapter;
  part_status : PartStatus
}.

#[global] Instance Chapter_eq_dec : EqDecision Chapter.
Proof. solve_decision. Defined.

Definition chapter (i : string) (n : Z) (t s p : string) : Chapter :=
  mkChapter (js i) n (js t) (js s) (js p) None.

Definition courseParts : list CoursePart :=
  [ mkPart (js "part1") 1 (js "Foundations")
      (js "Build your foundation and understand the basics")
      [ chapter "ch01" 1 "What is React Native & How It Works"
          "what-is-react-native"
          "/course_data/Part1-Foundations/Chapter01-What-Is-React-Native/README.md";
        chapter "ch02" 2 "Environment Setup & Your First App"
          "environment-setup"
          "/course_data/Part1-Foundations/Chapter02-Environment-Setup/README.md";
        chapter "ch03" 3 "Understanding Components - The Building Blocks"
          "understanding-components"
          "/course_data/Part1-Foundations/Chapter03-Understanding-Components/README.md";
        chapter "ch04" 4 "Styling Your App"
          "styling-your-app"
          "/course_data/Part1-Foundations/Chapter04-Styling-Your-App/README.md";
        chapter "ch05" 5 "Handling User Interaction"
          "handling-user-interaction"
          "/course_data/Part1-Foundations/Chapter05-Handling-User-Interaction/README.md" ]
      completed;
    mkPart (js "part2") 2 (js "Core Concepts")
      (js "Master the fundamentals that power every app")
      [ chapter "ch06" 6 "Props - Passing Data Between Components"
          "props"
          "/course_data/Part2-Core-Concepts/Chapter06-Props/README.md";
        chapter "ch07" 7 "State - Making Components Dynamic"
          "state"
          "/course_data/Part2-Core-Concepts/Chapter07-State/README.md";
        chapter "ch08" 8 "Lists & Keys - Displaying Dynamic Data"
          "lists-and-keys"
          "/course_data/Part2-Core-Concepts/Chapter08-Lists-And-Keys/README.md";
        chapter "ch09" 9 "useEffect - Side Effects & Lifecycle"
          "use-effect"
          "/course_data/Part2-Core-Concepts/Chapter09-UseEffect/README.md";
        chapter "ch10" 10 "Navigation - Moving Between Screens"
          "navigation"
          "/course_data/Part2-Core-Concepts/Chapter10-Navigation/README.md";
        chapter "ch11" 11 "Context API & Global State"
          "context-api"
          "/course_data/Part2-Core-Concepts/Chapter11-ContextAPI/README.md" ]
      completed;
    mkPart (js "part3") 3 (js "Advanced Topics")
      (js "Professional patterns, native integration, and production practices")
      [ chapter "ch12" 12 "Architecture Patterns"
          "architecture-patterns"
          "/course_data/Part3-Advanced-Topics/Chapter12-Architecture-Patterns/README.md";
        chapter "ch13" 13 "Advanced State Management (Zustand/Redux)"
          "advanced-state-management"
          "/course_data/Part3-Advanced-Topics/Chapter13-Advanced-State-Management/README.md";
        chapter "ch14" 14 "Async Operations & Data Fetching (React Query)"
          "async-operations"
          "/course_data/Part3-Advanced-Topics/Chapter14-Async-Operations-Data-Fetching/README.md";
        chapter "ch15" 15 "Native Modules & Platform APIs"
          "native-modules"
          "/course_data/Part3-Advanced-Topics/Chapter15-Native-Modules-Platform-APIs/README.md";
        chapter "ch16" 16 "Testing Your React Native App"
          "testing"
          "/course_data/Part3-Advanced-Topics/Chapter16-Testing/README.md";
        chapter "ch17" 17 "Performance & Production Ready"
          "performance-production"
          "/course_data/Part3-Advanced-Topics/Chapter17-Performance-Production/README.md" ]
      completed ].

(** The source's functions read the module-level constant [courseParts]; here
    the catalog is their first argument, so that they can also be stated on
    other values of type [CoursePart[]]. *)

(** [Array.prototype.findIndex]: the first index whose element satisfies the
    predicate, [-1] when there is none. *)
Fixpoint findIndex_from {A} (p : A -> bool) (l : list A) (i : Z) : Z :=
  match l with
  | [] => -1
  | x :: l' => if p x then i else findIndex_from p l' (i + 1)
  end.

Definition findIndex {A} (p : A -> bool) (l : list A) : Z :=
  findIndex_from p l 0.

(** [a[i]] for an integer [i]: [undefined] outside [0 .. a.length - 1]. *)
Definition array_get {A} (l : list A) (i : Z) : option A :=
  if i <? 0 then None else l !! Z.to_nat i.

Definition array_length {A} (l : list A) : Z := Z.of_nat (length l).

Definition getAllChapters (parts : list CoursePart) : list Chapter :=
  flat_map part_chapters parts.

Definition getChapterBySlug (parts : list CoursePart) (slug : jsstring)
  : option Chapter :=
  find (fun chapter => str_eqb (ch_slug chapter) slug) (getAllChapters parts).

Definition getPartByNumber (parts : list CoursePart) (partNumber : Z)
  : option CoursePart :=
  find (fun part => part_number part =? partNumber) parts.

Definition getNextChapter (parts : list CoursePart) (currentSlug : jsstring)
  : option Chapter :=
  let chapters := getAllChapters parts in
  let currentIndex :=
    findIndex (fun ch => str_eqb (ch_slug ch) currentSlug) chapters in
  if (0 <=? currentIndex) && (currentIndex <? array_length chapters - 1)
  then array_get chapters (currentIndex + 1)
  else None.

Definition getPreviousChapter (parts : list CoursePart) (currentSlug : jsstring)
  : option Chapter :=
  let chapters := getAllChapters parts in
  let currentIndex :=
    findIndex (fun ch => str_eqb (ch_slug ch) currentSlug) chapters in
  if 0 <? currentIndex then array_get chapters (currentIndex - 1) else None.

(** The part whose [chapters] array holds the chapter (the first such part):
    the part under which the sidebar and the course page list and link it. *)
Definition partOf (parts : list CoursePart) (c : Chapter) : option CoursePart :=
  find (fun part => bool_decide (c ∈ part_chapters part)) parts.

(** ** The chapter route: [app/course/[part]/[slug]/page.tsx] *)

Record RouteParams := mkParams { rp_part : jsstring; rp_slug : jsstring }.

#[global] Instance RouteParams_eq_dec : EqDecision RouteParams.
Proof. solve_decision. Defined.

(** [chapter.number <= 6 ? 1 : chapter.number <= 12 ? 2 : 3] *)
Definition partNumber_of (c : Chapter) : Z :=
  if ch_number c <=? 6 then 1 else if ch_number c <=? 12 then 2 else 3.

Definition generateStaticParams (parts : list CoursePart) : list RouteParams :=
  map (fun chapter =>
         mkParams (js "part" ++ Number_toString (partNumber_of chapter))
                  (ch_slug chapter))
      (getAllChapters parts).

(** What the sidebar, the course page and the home page put in [href]:
    [/course/part${part.number}/${chapter.slug}]. *)
Definition linked_params (part : CoursePart) (c : Chapter) : RouteParams :=
  mkParams (js "part" ++ Number_toString (part_number part)) (ch_slug c).


(** ** The platform: JSON

    [JSON.parse] and [JSON.stringify] as ECMA-262 defines them, over code
    units.  A number is kept as the literal that denotes it, and an object
    as the list of its members as written; what the literal and the members
    stand for, the binary64 number and the own properties in their order, is
    computed where the program can observe it: when two values are compared
    and when a value is printed. *)

#[warnings="-register-all"]
Inductive JSValue :=
| JNull
| JBool (b : bool)
| JNumber (literal : jsstring)
| JString (s : jsstring)
| JArray (elements : list JSValue)
| JObject (members : list (jsstring * JSValue)).

Inductive JSError := SyntaxError | TypeError.

(** The result of a call that may throw. *)
Inductive outcome (A : Type) :=
| Returns (a : A)
| Throws (e : JSError).
Arguments Returns {A} a.
Arguments Throws {A} e.

Definition obind {A B} (m : outcome A) (k : A -> outcome B) : outcome B :=
  match m with
  | Returns a => k a
  | Throws e => Throws e
  end.

Module Json.
Local Open Scope N_scope.

(** The parser's own result: [NoFuel] is an artefact of the recursion on a
    counter and is shown below never to reach [JSON_parse]. *)
Inductive res (A : Type) :=
| Parsed (a : A)
| Invalid
| NoFuel.
Arguments Parsed {A} a.
Arguments Invalid {A}.
Arguments NoFuel {A}.

Definition rbind {A B} (m : res A) (k : A -> res B) : res B :=
  match m with
  | Parsed a => k a
  | Invalid => Invalid
  | NoFuel => NoFuel
  end.

Definition of_option {A} (o : option A) : res A :=
  match o with
  | Some a => Parsed a
  | None => Invalid
  end.

Definition is_ws (c : N) : bool :=
  (c =? 9) || (c =? 10) || (c =? 13) || (c =? 32).

Fixpoint skip_ws (s : jsstring) : jsstring :=
  match s with
  | c :: s' => if is_ws c then skip_ws s' else s
  | [] => []
  end.

Definition is_digit (c : N) : bool := (48 <=? c) && (c <=? 57).

Definition hex_val (c : N) : option N :=
  if (48 <=? c) && (c <=? 57) then Some (c - 48)
  else if (97 <=? c) && (c <=? 102) then Some (c - 87)
  else if (65 <=? c) && (c <=? 70) then Some (c - 55)
  else None.

Definition hex4 (h1 h2 h3 h4 : N) : option N :=
  match hex_val h1, hex_val h2, hex_val h3, hex_val h4 with
  | Some a, Some b, Some c, Some d => Some (((a * 16 + b) * 16 + c) * 16 + d)
  | _, _, _, _ => None
  end.

(** The character after a backslash, other than [u]. *)
Definition unescape (e : N) : option N :=
  if e =? 34 then Some 34         (* quotation mark *)
  else if e =? 92 then Some 92    (* reverse solidus *)
  else if e =? 47 then Some 47    (* solidus *)
  else if e =? 98 then Some 8     (* b: backspace *)
  else if e =? 102 then Some 12   (* f: form feed *)
  else if e =? 110 then Some 10   (* n: line feed *)
  else if e =? 114 then Some 13   (* r: carriage return *)
  else if e =? 116 then Some 9    (* t: tab *)
  else None.

Definition cons_fst {A B} (a : A) (r : option (list A * B)) : option (list A * B) :=
  match r with
  | Some (l, b) => Some (a :: l, b)
  | None => None
  end.

(** The characters of a string after its opening quote, up to and including
    the closing quote. *)
Fixpoint parse_chars (s : jsstring) : option (jsstring * jsstring) :=
  match s with
  | [] => None
  | c :: rest =>
    if c =? 34 then Some ([], rest)
    else if c =? 92 then
      match rest with
      | [] => None
      | e :: rest1 =>
        if e =? 117 then
          match rest1 with
          | h1 :: h2 :: h3 :: h4 :: rest2 =>
            match hex4 h1 h2 h3 h4 with
            | Some u => cons_fst u (parse_chars rest2)
            | None => None
            end
          | _ => None
          end
        else
          match unescape e with
          | Some u => cons_fst u (parse_chars rest1)
          | None => None
          end
      end
    else if c <? 32 then None
    else cons_fst c (parse_chars rest)
  end.

Fixpoint span_digits (s : jsstring) : jsstring * jsstring :=
  match s with
  | c :: s' =>
    if is_digit c then let '(d, r) := span_digits s' in (c :: d, r) else ([], s)
  | [] => ([], [])
  end.

(** [0 | [1-9][0-9]*] *)
Definition parse_int (s : jsstring) : option (jsstring * jsstring) :=
  match s with
  | c :: s' =>
    if c =? 48 then Some ([c], s')
    else if is_digit c then let '(d, r) := span_digits s' in Some (c :: d, r)
    else None
  | [] => None
  end.

(** [(\.[0-9]+)?] *)
Definition parse_frac (s : jsstring) : option (jsstring * jsstring) :=
  match s with
  | c :: s' =>
    if c =? 46 then
      match span_digits s' with
      | ([], _) => None
      | (d, r) => Some (c :: d, r)
      end
    else Some ([], s)
  | [] => Some ([], s)
  end.

(** [([eE][+-]?[0-9]+)?] *)
Definition parse_exp (s : jsstring) : option (jsstring * jsstring) :=
  match s with
  | c :: s' =>
    if (c =? 101) || (c =? 69) then
      let '(sign, s'') :=
        match s' with
        | d :: t => if (d =? 43) || (d =? 45) then ([d], t) else ([], s')
        | [] => ([], s')
        end in
      match span_digits s'' with
      | ([], _) => None
      | (d, r) => Some (c :: sign ++ d, r)
      end
    else Some ([], s)
  | [] => Some ([], s)
  end.

Definition parse_number (s : jsstring) : option (jsstring * jsstring) :=
  let '(sign, s1) :=
    match s with
    | c :: t => if c =? 45 then ([c], t) else ([], s)
    | [] => ([], s)
    end in
  match parse_int s1 with
  | Some (i, s2) =>
    match parse_frac s2 with
    | Some (f, s3) =>
      match parse_exp s3 with
      | Some (e, s4) => Some (sign ++ i ++ f ++ e, s4)
      | None => None
      end
    | None => None
    end
  | None => None
  end.

Fixpoint strip_prefix (p s : jsstring) : option jsstring :=
  match p, s with
  | [], _ => Some s
  | a :: p', b :: s' => if a =? b then strip_prefix p' s' else None
  | _ :: _, [] => None
  end.

Definition parse_literal (s : jsstring) : res (JSValue * jsstring) :=
  match strip_prefix (js "null") s with
  | Some r => Parsed (JNull, r)
  | None =>
    match strip_prefix (js "true") s with
    | Some r => Parsed (JBool true, r)
    | None =>
      match strip_prefix (js "false") s with
      | Some r => Parsed (JBool false, r)
      | None =>
        match parse_number s with
        | Some (n, r) => Parsed (JNumber n, r)
        | None => Invalid
        end
      end
    end
  end.

Fixpoint parse_value (fuel : nat) (s : jsstring) {struct fuel}
  : res (JSValue * jsstring) :=
  match fuel with
  | O => NoFuel
  | S fuel' =>
    match skip_ws s with
    | [] => Invalid
    | c :: rest =>
      if c =? 34 then
        rbind (of_option (parse_chars rest)) (fun '(str, r) =>
        Parsed (JString str, r))
      else if c =? 91 then
        match skip_ws rest with
        | [] => Invalid
        | c' :: r' =>
          if c' =? 93 then Parsed (JArray [], r')
          else rbind (parse_elements fuel' rest) (fun '(l, r) =>
               Parsed (JArray l, r))
        end
      else if c =? 123 then
        match skip_ws rest with
        | [] => Invalid
        | c' :: r' =>
          if c' =? 125 then Parsed (JObject [], r')
          else rbind (parse_members fuel' rest) (fun '(l, r) =>
               Parsed (JObject l, r))
        end
      else parse_literal (c :: rest)
    end
  end
with parse_elements (fuel : nat) (s : jsstring) {struct fuel}
  : res (list JSValue * jsstring) :=
  match fuel with
  | O => NoFuel
  | S fuel' =>
    rbind (parse_value fuel' s) (fun '(v, r) =>
    match skip_ws r with
    | [] => Invalid
    | c :: r' =>
      if c =? 44 then
        rbind (parse_elements fuel' r') (fun '(l, r'') => Parsed (v :: l, r''))
      else if c =? 93 then Parsed ([v], r')
      else Invalid
    end)
  end
with parse_members (fuel : nat) (s : jsstring) {struct fuel}
  : res (list (jsstring * JSValue) * jsstring) :=
  match fuel with
  | O => NoFuel
  | S fuel' =>
    match skip_ws s with
    | [] => Invalid
    | q :: r0 =>
      if q =? 34 then
        rbind (of_option (parse_chars r0)) (fun '(k, r1) =>
        match skip_ws r1 with
        | [] => Invalid
        | c1 :: r2 =>
          if c1 =? 58 then
            rbind (parse_value fuel' r2) (fun '(v, r3) =>
            match skip_ws r3 with
            | [] => Invalid
            | c3 :: r4 =>
              if c3 =? 44 then
                rbind (parse_members fuel' r4) (fun '(l, r5) =>
                Parsed ((k, v) :: l, r5))
              else if c3 =? 125 then Parsed ([(k, v)], r4)
              else Invalid
            end)
          else Invalid
        end)
      else Invalid
    end
  end.

Definition fuel_for (s : jsstring) : nat := (2 * length s + 2)%nat.

(** [JSON.parse(text)]: one value between optional white space; anything
    else throws a [SyntaxError]. *)
Definition JSON_parse (text : jsstring) : outcome JSValue :=
  match parse_value (fuel_for text) text with
  | Parsed (v, r) =>
    match skip_ws r with
    | [] => Returns v
    | _ :: _ => Throws SyntaxError
    end
  | Invalid | NoFuel => Throws SyntaxError
  end.

(** *** [JSON.stringify] *)

Definition hex_digit (d : N) : N := if d <? 10 then 48 + d else 87 + d.

(** [\uXXXX], in lower case. *)
Definition unicode_escape (c : N) : jsstring :=
  [92; 117; hex_digit (c / 4096 mod 16); hex_digit (c / 256 mod 16);
   hex_digit (c / 16 mod 16); hex_digit (c mod 16)].

Definition is_lead (c : N) : bool := (0xD800 <=? c) && (c <=? 0xDBFF).
Definition is_trail (c : N) : bool := (0xDC00 <=? c) && (c <=? 0xDFFF).

Definition quote_unit (c : N) : jsstring :=
  if c =? 8 then [92; 98]
  else if c =? 9 then [92; 116]
  else if c =? 10 then [92; 110]
  else if c =? 12 then [92; 102]
  else if c =? 13 then [92; 114]
  else if c =? 34 then [92; 34]
  else if c =? 92 then [92; 92]
  else if (c <? 32) || is_lead c || is_trail c then unicode_escape c
  else [c].

(** The body of QuoteJSONString: code point by code point, a surrogate pair
    copied and a lone surrogate escaped. *)
Fixpoint quote_units (s : jsstring) : jsstring :=
  match s with
  | [] => []
  | c :: rest =>
    if is_lead c then
      match rest with
      | d :: rest' =>
        if is_trail d then c :: d :: quote_units rest'
        else quote_unit c ++ quote_units rest
      | [] => quote_unit c
      end
    else quote_unit c ++ quote_units rest
  end.

Definition quote (s : jsstring) : jsstring := 34 :: quote_units s ++ [34].

Fixpoint join_comma (l : list jsstring) : jsstring :=
  match l with
  | [] => []
  | [x] => x
  | x :: l' => x ++ 44 :: join_comma l'
  end.

(** *** Numbers

    The Number a literal denotes: the binary64 value nearest to it, ties to
    the even significand.  A finite value other than zero is [m * 2 ^ e]
    with [2 ^ 52 <= m < 2 ^ 53] and [-1074 <= e <= 971], or with
    [0 < m < 2 ^ 52] and [e = -1074].  The sign of zero is dropped: neither
    SameValueZero nor [JSON.stringify] tells [-0] from [0]. *)

Inductive Num :=
| NumZero
| NumFinite (negative : bool) (m e : Z)
| NumInfinity (negative : bool).

Fixpoint digits_value (acc : Z) (d : jsstring) : Z :=
  match d with
  | c :: d' => digits_value (10 * acc + (Z.of_N c - 48))%Z d'
  | [] => acc
  end.

(** The sign, [D] and [E] of a literal that stands for [D * 10 ^ E]. *)
Definition literal_decimal (s : jsstring) : bool * Z * Z :=
  let '(neg, s1) :=
    match s with
    | c :: t => if c =? 45 then (true, t) else (false, s)
    | [] => (false, s)
    end in
  let '(i, s2) := span_digits s1 in
  let '(f, s3) :=
    match s2 with
    | c :: t => if c =? 46 then span_digits t else ([], s2)
    | [] => ([], s2)
    end in
  let x :=
    match s3 with
    | c :: t =>
      if (c =? 101) || (c =? 69) then
        match t with
        | d :: u =>
          if d =? 45 then (- digits_value 0 (fst (span_digits u)))%Z
          else if d =? 43 then digits_value 0 (fst (span_digits u))
          else digits_value 0 (fst (span_digits t))
        | [] => 0%Z
        end
      else 0%Z
    | [] => 0%Z
    end in
  (neg, digits_value 0 (i ++ f), (x - Z.of_nat (length f))%Z).

(** [num / den] to the nearest integer, a tie to the even one. *)
Definition round_half_even (num den : Z) : Z :=
  let q := (num / den)%Z in
  let r := (num mod den)%Z in
  if (2 * r <? den)%Z then q
  else if (den <? 2 * r)%Z then (q + 1)%Z
  else if Z.even q then q else (q + 1)%Z.

(** The [k] with [2 ^ k <= num / den < 2 ^ (k + 1)], for positive [num] and
    [den]. *)
Definition log2_ratio (num den : Z) : Z :=
  let k := (Z.log2 num - Z.log2 den)%Z in
  let below :=
    if (0 <=? k)%Z then (den * 2 ^ k <=? num)%Z
    else (den <=? num * 2 ^ (- k))%Z in
  if below then k else (k - 1)%Z.

(** The Number nearest to [num / den], for positive [num] and [den]. *)
Definition Num_of_ratio (neg : bool) (num den : Z) : Num :=
  let k := log2_ratio num den in
  let e := (Z.max k (-1022) - 52)%Z in
  let m :=
    if (0 <=? e)%Z then round_half_even num (den * 2 ^ e)%Z
    else round_half_even (num * 2 ^ (- e))%Z den in
  let '(m, e) := if (m =? 2 ^ 53)%Z then ((2 ^ 52)%Z, (e + 1)%Z) else (m, e) in
  if (m =? 0)%Z then NumZero
  else if (971 <? e)%Z then NumInfinity neg
  else NumFinite neg m e.

Definition Num_of_literal (s : jsstring) : Num :=
  let '(neg, D, E) := literal_decimal s in
  if (D =? 0)%Z then NumZero
  else if (0 <=? E)%Z then Num_of_ratio neg (D * 10 ^ E)%Z 1%Z
  else Num_of_ratio neg D (10 ^ (- E))%Z.

Definition Num_eqb (a b : Num) : bool :=
  match a, b with
  | NumZero, NumZero => true
  | NumFinite n1 m1 e1, NumFinite n2 m2 e2 =>
    Bool.eqb n1 n2 && (m1 =? m2)%Z && (e1 =? e2)%Z
  | NumInfinity n1, NumInfinity n2 => Bool.eqb n1 n2
  | _, _ => false
  end.

(** The number of decimal digits of a positive integer. *)
Fixpoint count_digits (fuel : nat) (q : Z) : Z :=
  match fuel with
  | O => 0%Z
  | S fuel' => if (q <=? 0)%Z then 0%Z else (1 + count_digits fuel' (q / 10))%Z
  end.

(** The least [j >= from] with [den <= num * 10 ^ (j - from)]. *)
Fixpoint leading_shift (fuel : nat) (num den from : Z) : Z :=
  match fuel with
  | O => from
  | S fuel' =>
    if (den <=? num)%Z then from
    else leading_shift fuel' (num * 10)%Z den (from + 1)%Z
  end.

(** The [n] with [10 ^ (n - 1) <= num / den < 10 ^ n]. *)
Definition decimal_exponent (num den : Z) : Z :=
  if (den <=? num)%Z
  then count_digits (S (Z.to_nat (Z.log2 (num / den)))) (num / den)%Z
  else (1 - leading_shift (S (Z.to_nat (Z.log2 den))) (num * 10)%Z den 1)%Z.

Fixpoint strip_zeros_rev (d : jsstring) : jsstring :=
  match d with
  | c :: d' => if c =? 48 then strip_zeros_rev d' else d
  | [] => []
  end.

(** The shortest digits that denote the Number [m * 2 ^ e], and the place
    of the decimal point after them: the [s] and [n] of Number::toString,
    found by trying 1, 2, ... digits, the integer below and the one above,
    the nearer one when both denote the Number, the even one on a tie. *)
Fixpoint shortest_digits (ks : list Z) (m e : Z) : jsstring * Z :=
  let num := if (0 <=? e)%Z then (m * 2 ^ e)%Z else m in
  let den := if (0 <=? e)%Z then 1%Z else (2 ^ (- e))%Z in
  let n := decimal_exponent num den in
  match ks with
  | [] => ([], n)
  | k :: ks' =>
    let x := (n - k)%Z in
    let snum := if (0 <=? x)%Z then num else (num * 10 ^ (- x))%Z in
    let sden := if (0 <=? x)%Z then (den * 10 ^ x)%Z else den in
    let lo := (snum / sden)%Z in
    let r := (snum mod sden)%Z in
    let hi := (lo + 1)%Z in
    let denotes (s : Z) :=
      Num_eqb
        (if (0 <=? x)%Z then Num_of_ratio false (s * 10 ^ x)%Z 1%Z
         else Num_of_ratio false s (10 ^ (- x))%Z)
        (NumFinite false m e) in
    let prefer_lo := (2 * r <? sden)%Z || ((2 * r =? sden)%Z && Z.even lo) in
    let pick (s : Z) :=
      let d := js (NilZero.string_of_int (Z.to_int s)) in
      (rev (strip_zeros_rev (rev d)), (Z.of_nat (length d) + x)%Z) in
    if denotes lo && (prefer_lo || negb (denotes hi)) then pick lo
    else if denotes hi then pick hi
    else shortest_digits ks' m e
  end.

Definition digit_counts : list Z :=
  [1; 2; 3; 4; 5; 6; 7; 8; 9; 10; 11; 12; 13; 14; 15; 16; 17]%Z.

(** Number::toString on the digits [s] and the place [n]. *)
Definition format_digits (digits : jsstring) (n : Z) : jsstring :=
  let k := Z.of_nat (length digits) in
  if ((k <=? n) && (n <=? 21))%Z
  then digits ++ repeat 48 (Z.to_nat (n - k))
  else if ((0 <? n) && (n <=? 21))%Z
  then take (Z.to_nat n) digits ++ 46 :: drop (Z.to_nat n) digits
  else if ((-6 <? n) && (n <=? 0))%Z
  then 48 :: 46 :: repeat 48 (Z.to_nat (- n)) ++ digits
  else
    let x := (n - 1)%Z in
    let exponent :=
      101 :: (if (x <? 0)%Z then 45 else 43)
          :: js (NilZero.string_of_int (Z.to_int (Z.abs x))) in
    match digits with
    | [] => []
    | [d] => d :: exponent
    | d :: rest => d :: 46 :: rest ++ exponent
    end.

(** A Number as [JSON.stringify] prints it: [null] when it is not finite. *)
Definition Num_stringify (x : Num) : jsstring :=
  match x with
  | NumZero => [48]
  | NumFinite neg m e =>
    let '(digits, n) := shortest_digits digit_counts m e in
    (if neg then [45] else []) ++ format_digits digits n
  | NumInfinity _ => js "null"
  end.

(** *** Objects

    The own properties of the object that a list of members builds: a
    repeated key keeps its first place and its last value; the keys that
    are array indices come first, in ascending order, the others after them
    in the order of their first occurrence. *)

Definition array_index (key : jsstring) : option Z :=
  match key with
  | [] => None
  | c :: rest =>
    if forallb is_digit key
       && implb (c =? 48) match rest with [] => true | _ :: _ => false end
    then let v := digits_value 0 key in
         if (v <=? 4294967294)%Z then Some v else None
    else None
  end.

Fixpoint put_property {V} (key : jsstring) (v : V) (l : list (jsstring * V))
  : list (jsstring * V) :=
  match l with
  | [] => [(key, v)]
  | (k, w) :: l' =>
    if str_eqb k key then (k, v) :: l' else (k, w) :: put_property key v l'
  end.

Fixpoint insert_index {V} (i : Z) (p : jsstring * V) (l : list (Z * (jsstring * V)))
  : list (Z * (jsstring * V)) :=
  match l with
  | [] => [(i, p)]
  | (j, q) :: l' =>
    if (i <? j)%Z then (i, p) :: (j, q) :: l' else (j, q) :: insert_index i p l'
  end.

Definition own_properties {V} (members : list (jsstring * V))
  : list (jsstring * V) :=
  let props := fold_left (fun acc m => put_property (fst m) (snd m) acc) members [] in
  let indexed :=
    fold_left
      (fun acc p =>
         match array_index (fst p) with
         | Some i => insert_index i p acc
         | None => acc
         end) props [] in
  map snd indexed
  ++ List.filter (fun p => match array_index (fst p) with
                           | Some _ => false
                           | None => true
                           end) props.

Fixpoint JSON_stringify (v : JSValue) : jsstring :=
  match v with
  | JNull => js "null"
  | JBool true => js "true"
  | JBool false => js "false"
  | JNumber n => Num_stringify (Num_of_literal n)
  | JString s => quote s
  | JArray l => 91 :: join_comma (map JSON_stringify l) ++ [93]
  | JObject l =>
    123 :: join_comma
             (map (fun p => quote (fst p) ++ 58 :: snd p)
                  (own_properties
                     (map (fun m => (fst m, JSON_stringify (snd m))) l)))
        ++ [125]
  end.

End Json.
Export Json.

(** ** The platform: [Set]

    A [Set] is its elements in insertion order, no two of them the same
    value. *)

(** SameValueZero.  An array or an object is the same value only as itself,
    and every one that [JSON.parse] builds is a new object; two number
    literals are the same value when they denote the same Number. *)
Definition same_value_zero (a b : JSValue) : bool :=
  match a, b with
  | JNull, JNull => true
  | JBool x, JBool y => Bool.eqb x y
  | JNumber x, JNumber y => Num_eqb (Num_of_literal x) (Num_of_literal y)
  | JString x, JString y => str_eqb x y
  | _, _ => false
  end.

Definition set_has (s : list JSValue) (v : JSValue) : bool :=
  existsb (same_value_zero v) s.

Definition set_add (s : list JSValue) (v : JSValue) : list JSValue :=
  if set_has s v then s else s ++ [v].

Definition set_delete (s : list JSValue) (v : JSValue) : list JSValue :=
  filter (fun x => negb (same_value_zero v x)) s.

(** The iteration of a string: its code points, a surrogate pair as one. *)
Fixpoint code_points (s : jsstring) : list jsstring :=
  match s with
  | [] => []
  | c :: rest =>
    if is_lead c then
      match rest with
      | d :: rest' =>
        if is_trail d then [c; d] :: code_points rest'
        else [c] :: code_points rest
      | [] => [[c]]
      end
    else [c] :: code_points rest
  end.

(** [new Set(iterable)]: empty for [null], the elements of an array, the
    code points of a string; a [TypeError] for what is not iterable. *)
Definition new_Set (iterable : JSValue) : outcome (list JSValue) :=
  match iterable with
  | JNull => Returns []
  | JArray l => Returns (fold_left set_add l [])
  | JString s => Returns (fold_left set_add (map JString (code_points s)) [])
  | JBool _ | JNumber _ | JObject _ => Throws TypeError
  end.

(** ** The platform: [localStorage]

    One map from keys to strings for all windows of the origin.  A write is
    taken to succeed. *)

Abbreviation Storage := (gmap jsstring jsstring).

Definition getItem (st : Storage) (key : jsstring) : option jsstring := st !! key.

Definition setItem (st : Storage) (key value : jsstring) : Storage :=
  <[key := value]> st.

(** [if (saved)] for [saved : string | null]. *)
Definition truthy (saved : option jsstring) : bool :=
  match saved with
  | Some (_ :: _) => true
  | Some [] | None => false
  end.

Definition completedChapters_key : jsstring := js "completedChapters".

(** [new Set(JSON.parse(saved))] *)
Definition parse_set (saved : jsstring) : outcome (list JSValue) :=
  obind (JSON_parse saved) new_Set.

(** ** The chapter view: [components/chapter-content.tsx]

    The component [ChapterContent] that the chapter page imports from
    [@/components/chapter-content]. *)

(** The [slug] prop and the [isCompleted] state. *)
Record ChapterContent := mkView {
  cc_slug : jsstring;
  cc_isCompleted : bool
}.

(** A first render: [useState(false)]. *)
Definition ChapterContent_mount (slug : jsstring) : ChapterContent :=
  mkView slug false.

(** A render of the same component with another [slug]: state is kept. *)
Definition ChapterContent_rerender (slug : jsstring) (view : ChapterContent)
  : ChapterContent :=
  mkView slug (cc_isCompleted view).

(** The part of the effect on [[chapter]] that reads the completion state. *)
Definition ChapterContent_effect (parts : list CoursePart) (st : Storage)
  (view : ChapterContent) : outcome ChapterContent :=
  match getChapterBySlug parts (cc_slug view) with
  | None => Returns view
  | Some chapter =>
    let saved := getItem st completedChapters_key in
    if truthy saved then
      obind (parse_set (default [] saved)) (fun completed =>
      Returns (mkView (cc_slug view) (set_has completed (JString (ch_id chapter)))))
    else Returns view
  end.

(** What a call of [toggleCompleted] leaves behind: the storage, the view's
    state and the events it dispatched on its window.  The function itself
    returns nothing. *)
Record Toggled := mkToggled {
  tg_storage : Storage;
  tg_view : ChapterContent;
  tg_dispatched : list jsstring
}.

Definition toggleCompleted (parts : list CoursePart) (st : Storage)
  (view : ChapterContent) : outcome Toggled :=
  match getChapterBySlug parts (cc_slug view) with
  | None => Returns (mkToggled st view [])
  | Some chapter =>
    let saved := getItem st completedChapters_key in
    obind (if truthy saved then parse_set (default [] saved) else Returns [])
      (fun completed =>
    let completed :=
      if cc_isCompleted view
      then set_delete completed (JString (ch_id chapter))
      else set_add completed (JString (ch_id chapter)) in
    let st := setItem st completedChapters_key (JSON_stringify (JArray completed)) in
    let view := mkView (cc_slug view) (negb (cc_isCompleted view)) in
    Returns (mkToggled st view [js "storage"]))
  end.

(** ** The sidebar: [components/course-sidebar.tsx] *)

(** The [completedChapters] state. *)
Record SidebarContent := mkSidebar {
  sb_completedChapters : list JSValue
}.

(** [useState<Set<string>>(new Set())] *)
Definition SidebarContent_mount : SidebarContent := mkSidebar [].

Definition loadCompleted (st : Storage) (sb : SidebarContent)
  : outcome SidebarContent :=
  let saved := getItem st completedChapters_key in
  if truthy saved then
    obind (parse_set (default [] saved)) (fun completed =>
    Returns (mkSidebar completed))
  else Returns sb.

Definition isChapterCompleted (sb : SidebarContent) (chapterId : jsstring) : bool :=
  set_has (sb_completedChapters sb) (JString chapterId).

(** ** Windows sharing one storage *)

(** A window holds at most one chapter view and the sidebars mounted in it,
    each of which has registered [loadCompleted] for [storage] events. *)
Record Window := mkWindow {
  w_chapter : option ChapterContent;
  w_sidebars : list SidebarContent
}.

Record World := mkWorld {
  localStorage : Storage;
  windows : list Window
}.

(** A [storage] event reaching a window: every registered listener runs; an
    exception in a listener is reported and does not stop the others. *)
Definition on_storage (st : Storage) (w : Window) : Window :=
  mkWindow (w_chapter w)
    (map (fun sb => match loadCompleted st sb with
                    | Returns sb' => sb'
                    | Throws _ => sb
                    end) (w_sidebars w)).

Definition dispatch (st : Storage) (events : list jsstring) (w : Window) : Window :=
  fold_left (fun w e => if str_eqb e (js "storage") then on_storage st w else w)
            events w.

(** A click on the completion button of window [i]: [toggleCompleted] runs,
    and [window.dispatchEvent] calls the listeners of that window before it
    returns.  An exception in the handler leaves everything as it was. *)
Definition click (parts : list CoursePart) (i : nat) (world : World) : World :=
  match windows world !! i with
  | Some w =>
    match w_chapter w with
    | Some view =>
      match toggleCompleted parts (localStorage world) view with
      | Returns t =>
        let w' := dispatch (tg_storage t) (tg_dispatched t)
                    (mkWindow (Some (tg_view t)) (w_sidebars w)) in
        mkWorld (tg_storage t) (<[i := w']> (windows world))
      | Throws _ => world
      end
    | None => world
    end
  | None => world
  end.

(** The browser's own [storage] event, which it sends to the other windows
    of the origin after a write, arriving at window [j]. *)
Definition native_storage_event (j : nat) (world : World) : World :=
  match windows world !! j with
  | Some w =>
    mkWorld (localStorage world)
            (<[j := on_storage (localStorage world) w]> (windows world))
  | None => world
  end.

(** ** The chapter page, continued *)

(** What the route answers: Next's not-found page (after [notFound()]), or
    the [ChapterContent] element with its props. *)
Inductive Page :=
| NotFoundPage
| ChapterElement (slug : jsstring) (initialContent : option jsstring).

(** What a [ChapterContent] element puts on screen: the card [Chapter Not
    Found] when [getChapterBySlug] finds nothing, the chapter otherwise (a
    skeleton first, while its text loads). *)
Inductive Screen :=
| NotFoundScreen
| ChapterScreen (chapter : Chapter).

Definition ChapterContent_render (parts : list CoursePart) (slug : jsstring)
  : Screen :=
  match getChapterBySlug parts slug with
  | None => NotFoundScreen
  | Some chapter => ChapterScreen chapter
  end.

Definition screen_of (parts : list CoursePart) (page : Page) : Screen :=
  match page with
  | NotFoundPage => NotFoundScreen
  | ChapterElement slug _ => ChapterContent_render parts slug
  end.

(** [app/course/[part]/[slug]/page.tsx]: the view fetches its own content. *)
Module RouteClient.

Definition ChapterPage (params : RouteParams) : Page :=
  ChapterElement (rp_slug params) None.

End RouteClient.

(** The other version of the same route, which reads the chapter's file when
    the page is built.  [readFile] is the file system under [public/], asked
    for [chapter.path]: [None] when [fs.readFile] rejects. *)
Module RouteStatic.

Definition ChapterPage (parts : list CoursePart)
  (readFile : jsstring -> option jsstring) (params : RouteParams) : Page :=
  match getChapterBySlug parts (rp_slug params) with
  | None => NotFoundPage
  | Some chapter =>
    match readFile (ch_path chapter) with
    | Some content => ChapterElement (rp_slug params) (Some content)
    | None => NotFoundPage
    end
  end.

End RouteStatic.

(** ** Module initialisation

    [export const courseParts: CoursePart[] = [ ... ]]: the literal is
    evaluated and bound; no code runs over it. *)
Definition module_init (literal : list CoursePart) : outcome (list CoursePart) :=
  Returns literal.

(** ** One window in use *)

Inductive Action :=
| Open (slug : jsstring)       (* a chapter page is opened: a new view *)
| Navigate (slug : jsstring)   (* the mounted view gets another slug *)
| Click.                       (* the completion button *)

Record Browser := mkBrowser {
  b_storage : Storage;
  b_view : option ChapterContent
}.

Definition act (parts : list CoursePart) (b : Browser) (a : Action)
  : outcome Browser :=
  match a with
  | Open slug =>
    obind (ChapterContent_effect parts (b_storage b) (ChapterContent_mount slug))
      (fun v => Returns (mkBrowser (b_storage b) (Some v)))
  | Navigate slug =>
    let view :=
      match b_view b with
      | Some v => ChapterContent_rerender slug v
      | None => ChapterContent_mount slug
      end in
    obind (ChapterContent_effect parts (b_storage b) view)
      (fun v => Returns (mkBrowser (b_storage b) (Some v)))
  | Click =>
    match b_view b with
    | Some v =>
      obind (toggleCompleted parts (b_storage b) v)
        (fun t => Returns (mkBrowser (tg_storage t) (Some (tg_view t))))
    | None => Returns b
    end
  end.

Fixpoint run (parts : list CoursePart) (b : Browser) (actions : list Action)
  : outcome Browser :=
  match actions with
  | [] => Returns b
  | a :: rest => obind (act parts b a) (fun b' => run parts b' rest)
  end.

(** The identifiers [toggleCompleted] is called on during a run: at each
    click, that of the chapter on screen, if there is one. *)
Fixpoint toggle_calls (parts : list CoursePart) (current : option jsstring)
  (actions : list Action) : list jsstring :=
  match actions with
  | [] => []
  | Open slug :: rest | Navigate slug :: rest =>
    toggle_calls parts (Some slug) rest
  | Click :: rest =>
    match current ≫= getChapterBySlug parts with
    | Some chapter => ch_id chapter :: toggle_calls parts current rest
    | None => toggle_calls parts current rest
    end
  end.

Definition toggle_count (unitId : jsstring) (calls : list jsstring) : nat :=
  length (filter (fun x => str_eqb x unitId) calls).

(** A restart: nothing survives but the storage; the sidebar mounts and its
    effect calls [loadCompleted]. *)
Definition restart (st : Storage) : outcome SidebarContent :=
  loadCompleted st SidebarContent_mount.

(** ** The global order, in the specification's words

    Units sorted primarily by the number of their section and secondarily by
    their own number.  This is the specification's definition, to be compared
    with [getAllChapters]. *)

Definition units_of (parts : list CoursePart) : list (CoursePart * Chapter) :=
  flat_map (fun p => map (pair p) (part_chapters p)) parts.

Definition unit_key (u : CoursePart * Chapter) : Z * Z :=
  (part_number (fst u), ch_number (snd u)).

Definition key_ltb (a b : Z * Z) : bool :=
  (fst a <? fst b) || ((fst a =? fst b) && (snd a <? snd b)).

Definition key_leb (a b : Z * Z) : bool :=
  (fst a <? fst b) || ((fst a =? fst b) && (snd a <=? snd b)).

Fixpoint insert_unit (u : CoursePart * Chapter) (l : list (CoursePart * Chapter))
  : list (CoursePart * Chapter) :=
  match l with
  | [] => [u]
  | v :: l' =>
    if key_leb (unit_key u) (unit_key v) then u :: v :: l'
    else v :: insert_unit u l'
  end.

Definition sort_units (l : list (CoursePart * Chapter))
  : list (CoursePart * Chapter) :=
  foldr insert_unit [] l.

Definition global_order (parts : list CoursePart) : list Chapter :=
  map snd (sort_units (units_of parts)).

(** Each key below the next one. *)
Fixpoint keys_increasing (l : list (Z * Z)) : bool :=
  match l with
  | a :: (b :: _) as l' => key_ltb a b && keys_increasing l'
  | _ => true
  end.

(** ** The generated routes against the catalog *)

Definition route_agrees (c : Chapter) (r : RouteParams) (p : CoursePart) : bool :=
  str_eqb (rp_part r) (js "part" ++ Number_toString (part_number p)).

(** A chapter against its generated route: slug, thresholds, and the part
    that holds the chapter, with the two chapters at the thresholds apart. *)
Definition route_check (cr : Chapter * RouteParams) : bool :=
  let '(c, r) := cr in
  match partOf courseParts c with
  | None => false
  | Some p =>
    str_eqb (rp_slug r) (ch_slug c)
    && str_eqb (rp_part r) (js "part" ++ Number_toString (partNumber_of c))
    && (if str_eqb (ch_id c) (js "ch06")
        then str_eqb (rp_part r) (js "part1") && (part_number p =? 2)
        else if str_eqb (ch_id c) (js "ch12")
        then str_eqb (rp_part r) (js "part2") && (part_number p =? 3)
        else route_agrees c r p)
  end.

(** A catalog in which two chapters share their identifier and their slug. *)
Definition twin_catalog : list CoursePart :=
  [ mkPart (js "part1") 1 (js "Foundations") (js "")
      [ chapter "ch01" 1 "First" "intro" "/first.md";
        chapter "ch01" 2 "Second" "intro" "/second.md" ]
      completed ].

(** ** Records of identifiers

    The vocabulary of the statements below: a completion record as the list
    of its identifiers in insertion order, and the storage that holds it. *)

Definition ids_add (l : list jsstring) (x : jsstring) : list jsstring :=
  if bool_decide (x ∈ l) then l else l ++ [x].

Definition ids_delete (l : list jsstring) (x : jsstring) : list jsstring :=
  filter (fun y => negb (str_eqb x y)) l.

(** The identifiers of [l], each once, in the order of their first
    occurrences. *)
Definition ids_of (l : list jsstring) : list jsstring := fold_left ids_add l [].

(** The value under the completion key is the JSON of the array of strings
    [l]; a missing key and the empty string hold the empty record. *)
Definition stores (st : Storage) (l : list jsstring) : Prop :=
  match getItem st completedChapters_key with
  | None | Some [] => l = []
  | Some s => JSON_parse s = Returns (JArray (map JString l))
  end.

(** What [new Set] accepts. *)
Definition iterable (v : JSValue) : bool :=
  match v with
  | JNull | JArray _ | JString _ => true
  | JBool _ | JNumber _ | JObject _ => false
  end.

(** The record [toggleCompleted] writes: the stored one without the
    identifier when the cached flag is set, with it when not. *)
Definition toggled_record (l : list jsstring) (flag : bool) (unitId : jsstring)
  : list jsstring :=
  if flag then ids_delete (ids_of l) unitId else ids_add (ids_of l) unitId.

(** What holds after any number of actions in one window: the storage holds
    a record without repetition, of the identifiers toggled an odd number of
    times so far, and the flag of the view agrees with it. *)
Definition in_sync (parts : list CoursePart) (b : Browser)
  (past : list jsstring) : Prop :=
  exists l : list jsstring,
    stores (b_storage b) l
    /\ NoDup l
    /\ (forall y, y ∈ l <-> Nat.odd (toggle_count y past) = true)
    /\ forall v, b_view b = Some v ->
         (truthy (getItem (b_storage b) completedChapters_key) = false ->
          cc_isCompleted v = false)
         /\ forall c, getChapterBySlug parts (cc_slug v) = Some c ->
                      cc_isCompleted v = bool_decide (ch_id c ∈ l).

(** ** Links between pages *)

(** The path of a route: [/course/${part}/${slug}]. *)
Definition route_path (r : RouteParams) : jsstring :=
  js "/course/" ++ rp_part r ++ js "/" ++ rp_slug r.

(** The route of the Previous and Next links of the chapter view:
    [/course/part${c.number <= 6 ? 1 : c.number <= 12 ? 2 : 3}/${c.slug}]. *)
Definition nav_params (c : Chapter) : RouteParams :=
  mkParams
    (js "part"
     ++ Number_toString
          (if ch_number c <=? 6 then 1 else if ch_number c <=? 12 then 2 else 3))
    (ch_slug c).

(** The two links under a chapter: each is there when the chapter has a
    neighbour on that side. *)
Definition ChapterContent_nav (parts : list CoursePart) (slug : jsstring)
  : option jsstring * option jsstring :=
  (option_map (fun c => route_path (nav_params c)) (getPreviousChapter parts slug),
   option_map (fun c => route_path (nav_params c)) (getNextChapter parts slug)).

(** The button of a part on the home page:
    [/course/part${part.number}/${part.chapters[0].slug}]; reading [slug] of
    the first chapter of a part without chapters throws. *)
Definition start_part_link (part : CoursePart) : outcome RouteParams :=
  match part_chapters part with
  | [] => Throws TypeError
  | c :: _ => Returns (linked_params part c)
  end.

(** The card of a part on the home page: [part.chapters.slice(0, 3)], and
    [part.chapters.length - 3] more when [part.chapters.length > 3]. *)
Definition part_preview (part : CoursePart) : list Chapter :=
  take 3 (part_chapters part).

Definition more_chapters (part : CoursePart) : option Z :=
  if 3 <? array_length (part_chapters part)
  then Some (array_length (part_chapters part) - 3)
  else None.

(** ** The sidebar, continued *)

(** [s.startsWith(p)] and [s.includes(sub)]. *)
Fixpoint starts_with (s p : jsstring) : bool :=
  match p, s with
  | [], _ => true
  | a :: p', b :: s' => (a =? b)%N && starts_with s' p'
  | _ :: _, [] => false
  end.

Fixpoint includes (s sub : jsstring) : bool :=
  starts_with s sub
  || match s with
     | [] => false
     | _ :: s' => includes s' sub
     end.

(** [pathname?.includes(slug)], used as a condition. *)
Definition isChapterActive (pathname : option jsstring) (slug : jsstring) : bool :=
  match pathname with
  | Some p => includes p slug
  | None => false
  end.

(** The capture of [pathname.match(/\/course\/part(\d+)/)]: at the leftmost
    place where [/course/part] is followed by a digit, all the digits that
    follow. *)
Fixpoint match_course_part (s : jsstring) : option jsstring :=
  let here :=
    match strip_prefix (js "/course/part") s with
    | Some rest =>
      match span_digits rest with
      | ([], _) => None
      | (d, _) => Some d
      end
    | None => None
    end in
  match here with
  | Some d => Some d
  | None =>
    match s with
    | [] => None
    | _ :: s' => match_course_part s'
    end
  end.

(** The last statement of the effect, taken alone:
    [setOpenParts([`part${match[1]}`])] when the path matches, nothing
    otherwise.  The effect as a whole is [SidebarContent_effect] below. *)
Definition auto_open (pathname : option jsstring) (openParts : list jsstring)
  : list jsstring :=
  match pathname with
  | Some p =>
    match match_course_part p with
    | Some d => [js "part" ++ d]
    | None => openParts
    end
  | None => openParts
  end.

(** The state of a sidebar: the record, the open accordion items, and
    whether [loadCompleted] is registered for [storage] events. *)
Record SidebarState := mkSidebarState {
  ss_content : SidebarContent;
  ss_openParts : list jsstring;
  ss_listening : bool
}.

(** The effect on [[pathname]], in the order of the source: [loadCompleted()]
    first, whose exception ends the effect there; then
    [window.addEventListener]; then the part named in the path is opened. *)
Definition SidebarContent_effect (st : Storage) (pathname : option jsstring)
  (s : SidebarState) : outcome SidebarState :=
  obind (loadCompleted st (ss_content s)) (fun sb =>
  Returns (mkSidebarState sb (auto_open pathname (ss_openParts s)) true)).

(** The badge of a part: [part.chapters.filter(ch => isChapterCompleted(ch.id)).length]. *)
Definition completedCount (sb : SidebarContent) (part : CoursePart) : nat :=
  length (filter (fun ch => isChapterCompleted sb (ch_id ch)) (part_chapters part)).

(** [completedChapters.size], the numerator of the header. *)
Definition completed_size (sb : SidebarContent) : nat :=
  length (sb_completedChapters sb).

(** ** The typewriter: [components/typewriter.tsx] *)

Record Typewriter := mkTypewriter {
  tw_displayedText : jsstring;
  tw_currentIndex : nat;
  tw_started : bool
}.

Definition Typewriter_mount : Typewriter := mkTypewriter [] 0 false.

(** The timeout of the first effect fires. *)
Definition Typewriter_start (tw : Typewriter) : Typewriter :=
  mkTypewriter (tw_displayedText tw) (tw_currentIndex tw) true.

(** The second effect sets a timeout only when started and
    [currentIndex < text.length]; when it fires, one code unit is appended
    and the index moves on. *)
Definition Typewriter_tick (text : jsstring) (tw : Typewriter) : Typewriter :=
  if tw_started tw && (tw_currentIndex tw <? length text)%nat
  then mkTypewriter
         (tw_displayedText tw ++ option_list (text !! tw_currentIndex tw))
         (S (tw_currentIndex tw)) true
  else tw.

(** The cursor is drawn while [currentIndex < text.length]. *)
Definition Typewriter_cursor (text : jsstring) (tw : Typewriter) : bool :=
  (tw_currentIndex tw <? length text)%nat.

(** ** What happens in a world of windows *)

Inductive Step :=
| UserClick (i : nat)
| StorageEvent (j : nat).

Definition step (parts : list CoursePart) (world : World) (s : Step) : World :=
  match s with
  | UserClick i => click parts i world
  | StorageEvent j => native_storage_event j world
  end.

Definition steps (parts : list CoursePart) (world : World) (l : list Step)
  : World :=
  fold_left (step parts) l world.

(** The identifiers [toggleCompleted] is called on during a trace: at each
    click, that of the chapter shown in the window clicked, if there is
    one. *)
Fixpoint world_toggle_calls (parts : list CoursePart) (world : World)
  (trace : list Step) : list jsstring :=
  match trace with
  | [] => []
  | s :: rest =>
    match s with
    | UserClick i =>
      match ((windows world !! i) ≫= w_chapter)
            ≫= (fun v => getChapterBySlug parts (cc_slug v)) with
      | Some c => [ch_id c]
      | None => []
      end
    | StorageEvent _ => []
    end ++ world_toggle_calls parts (step parts world s) rest
  end.

(** The identifiers of the catalog. *)
Definition catalog_ids (parts : list CoursePart) : list jsstring :=
  map ch_id (getAllChapters parts).

(** * Properties *)

(** ** Positions in the listing of [getAllChapters] *)

Section FindIndex.
Context {A : Type} (p : A -> bool).

Lemma findIndex_from_none (l : list A) (k : Z) :
  Forall (fun x => p x = false) l -> findIndex_from p l k = -1.
Proof.
  intros H. revert k. induction H as [|x l Hx _ IH]; intros k; simpl.
  - reflexivity.
  - rewrite Hx. apply IH.
Qed.

Lemma findIndex_from_first (l : list A) (k : Z) (i : nat) (x : A) :
  l !! i = Some x -> p x = true ->
  (forall j y, (j < i)%nat -> l !! j = Some y -> p y = false) ->
  findIndex_from p l k = k + Z.of_nat i.
Proof.
  revert k i. induction l as [|a l IH]; intros k i Hi Hx Hbefore.
  - discriminate.
  - destruct i as [|i]; simpl in *.
    + injection Hi as ->. rewrite Hx. lia.
    + rewrite (Hbefore 0%nat a) by (simpl; auto with lia).
      rewrite (IH (k + 1) i Hi Hx).
      * lia.
      * intros j y Hj Hy. apply (Hbefore (S j) y); [lia | exact Hy].
Qed.
End FindIndex.

Lemma array_get_nat {A} (l : list A) (i : nat) :
  array_get l (Z.of_nat i) = l !! i.
Proof.
  unfold array_get. destruct (Z.ltb_spec (Z.of_nat i) 0); [lia|].
  now rewrite Nat2Z.id.
Qed.

Lemma str_eqb_eq (a b : jsstring) : str_eqb a b = true <-> a = b.
Proof. unfold str_eqb. apply bool_decide_eq_true. Qed.

Lemma str_eqb_neq (a b : jsstring) : str_eqb a b = false <-> a <> b.
Proof. unfold str_eqb. apply bool_decide_eq_false. Qed.

Lemma str_eqb_refl (a : jsstring) : str_eqb a a = true.
Proof. now apply str_eqb_eq. Qed.

Section UniqueSlugs.
Variable parts : list CoursePart.
Hypothesis slugs_unique : NoDup (map ch_slug (getAllChapters parts)).

Lemma slug_position (i : nat) (c : Chapter) :
  getAllChapters parts !! i = Some c ->
  findIndex (fun ch => str_eqb (ch_slug ch) (ch_slug c)) (getAllChapters parts)
  = Z.of_nat i.
Proof.
  intros Hi. unfold findIndex.
  rewrite (findIndex_from_first _ _ 0 i c Hi); [lia | apply str_eqb_refl |].
  intros j y Hj Hy. apply str_eqb_neq. intros Heq.
  assert (Hji : j = i); [|lia].
  eapply NoDup_lookup; [exact slugs_unique | |].
  - rewrite list_lookup_fmap, Hy. reflexivity.
  - rewrite list_lookup_fmap, Hi. simpl. now rewrite Heq.
Qed.

Lemma unknown_slug_position (slug : jsstring) :
  slug ∉ map ch_slug (getAllChapters parts) ->
  findIndex (fun ch => str_eqb (ch_slug ch) slug) (getAllChapters parts) = -1.
Proof.
  intros Hnot. apply findIndex_from_none.
  apply Forall_forall. intros c Hc. apply str_eqb_neq. intros <-.
  apply Hnot. apply list_elem_of_fmap. now exists c.
Qed.

(** Neighbours by position in the order of [getAllChapters]. *)
Lemma neighbours_in_listing :
  (forall (i : nat) (c : Chapter),
      getAllChapters parts !! i = Some c ->
      getNextChapter parts (ch_slug c) = getAllChapters parts !! S i
      /\ (S i = length (getAllChapters parts) ->
          getNextChapter parts (ch_slug c) = None)
      /\ getPreviousChapter parts (ch_slug c)
         = match i with
           | O => None
           | S j => getAllChapters parts !! j
           end)
  /\ (forall slug : jsstring,
        slug ∉ map ch_slug (getAllChapters parts) ->
        getNextChapter parts slug = None
        /\ getPreviousChapter parts slug = None).
Proof.
  split.
  - intros i c Hi.
    assert (Hnext : getNextChapter parts (ch_slug c)
                    = getAllChapters parts !! S i).
    { unfold getNextChapter. cbv zeta. rewrite (slug_position i c Hi).
      pose proof (lookup_lt_Some _ _ _ Hi) as Hlt.
      unfold array_length.
      destruct (Z.leb_spec 0 (Z.of_nat i)); [|lia]. simpl.
      destruct (Z.ltb_spec (Z.of_nat i)
                  (Z.of_nat (length (getAllChapters parts)) - 1)).
      - replace (Z.of_nat i + 1) with (Z.of_nat (S i)) by lia.
        apply array_get_nat.
      - symmetry. apply lookup_ge_None. lia. }
    split; [exact Hnext|]. split.
    + intros Hlast. rewrite Hnext. apply lookup_ge_None. lia.
    + unfold getPreviousChapter. cbv zeta. rewrite (slug_position i c Hi).
      destruct i as [|j].
      * reflexivity.
      * destruct (Z.ltb_spec 0 (Z.of_nat (S j))); [|lia].
        replace (Z.of_nat (S j) - 1) with (Z.of_nat j) by lia.
        apply array_get_nat.
  - intros slug Hnot.
    unfold getNextChapter, getPreviousChapter. cbv zeta.
    rewrite (unknown_slug_position slug Hnot). split; reflexivity.
Qed.
End UniqueSlugs.

Lemma courseParts_slugs_unique : NoDup (map ch_slug (getAllChapters courseParts)).
Proof. apply (bool_decide_unpack _). vm_compute. exact I. Qed.


(** ** The global order *)

Lemma units_of_chapters (parts : list CoursePart) :
  map snd (units_of parts) = getAllChapters parts.
Proof.
  unfold units_of, getAllChapters.
  induction parts as [|p parts IH]; simpl; [reflexivity|].
  rewrite map_app, IH. f_equal.
  rewrite map_map. simpl. apply map_id.
Qed.

Lemma key_ltb_leb (a b : Z * Z) : key_ltb a b = true -> key_leb a b = true.
Proof.
  unfold key_ltb, key_leb. intros H.
  apply orb_true_iff in H as [H | H]; apply orb_true_iff; [now left|right].
  apply andb_true_iff in H as [H1 H2]. apply andb_true_iff. split; [exact H1|].
  apply Z.leb_le. apply Z.ltb_lt in H2. lia.
Qed.

Lemma insert_unit_permutation u l : Permutation (insert_unit u l) (u :: l).
Proof.
  induction l as [|v l IH]; simpl; [reflexivity|].
  destruct (key_leb (unit_key u) (unit_key v)); [reflexivity|].
  rewrite IH. apply perm_swap.
Qed.

Lemma sort_units_permutation l : Permutation (sort_units l) l.
Proof.
  induction l as [|u l IH]; simpl; [reflexivity|].
  rewrite insert_unit_permutation. now constructor.
Qed.

(** Sorting leaves a list alone whose keys already increase. *)
Lemma sort_units_increasing l :
  keys_increasing (map unit_key l) = true -> sort_units l = l.
Proof.
  induction l as [|u l IH]; [reflexivity|].
  destruct l as [|v l]; [reflexivity|].
  intros H. simpl in H. apply andb_true_iff in H as [Huv Hrest].
  change (sort_units (u :: v :: l)) with (insert_unit u (sort_units (v :: l))).
  rewrite (IH Hrest). simpl. now rewrite (key_ltb_leb _ _ Huv).
Qed.

Lemma global_order_listed (parts : list CoursePart) :
  keys_increasing (map unit_key (units_of parts)) = true ->
  getAllChapters parts = global_order parts.
Proof.
  intros H. unfold global_order. rewrite (sort_units_increasing _ H).
  symmetry. apply units_of_chapters.
Qed.

Lemma getAllChapters_elem (parts : list CoursePart) (c : Chapter) :
  c ∈ getAllChapters parts <-> exists p, p ∈ parts /\ c ∈ part_chapters p.
Proof.
  unfold getAllChapters. rewrite list_elem_of_In, in_flat_map.
  split; intros (p & Hp & Hc); exists p; split;
    first [now apply list_elem_of_In | now apply list_elem_of_In in Hp
          | now apply list_elem_of_In in Hc].
Qed.

(** C7.  In a catalog that lists its parts and chapters by increasing
    numbers, as the catalog of the repository does, and has unique slugs,
    the neighbours are those of the global order, the sort by section
    number and then by chapter number: [getNextChapter] of the slug of the
    unit at place [i] of the global order is the unit at place [i + 1],
    nothing when [i] is the last place; [getPreviousChapter] is the unit at
    place [i - 1], nothing when [i] is the first; both answer nothing for a
    slug no unit has.  All of these are values: no call fails. *)
Theorem next_previous_in_global_order (parts : list CoursePart) :
  keys_increasing (map unit_key (units_of parts)) = true ->
  NoDup (map ch_slug (global_order parts)) ->
  (forall (i : nat) (c : Chapter),
      global_order parts !! i = Some c ->
      getNextChapter parts (ch_slug c) = global_order parts !! S i
      /\ (S i = length (global_order parts) ->
          getNextChapter parts (ch_slug c) = None)
      /\ getPreviousChapter parts (ch_slug c)
         = match i with
           | O => None
           | S j => global_order parts !! j
           end)
  /\ (forall slug : jsstring,
        slug ∉ map ch_slug (global_order parts) ->
        getNextChapter parts slug = None
        /\ getPreviousChapter parts slug = None).
Proof.
  intros Hkeys. rewrite <- (global_order_listed parts Hkeys).
  apply neighbours_in_listing.
Qed.

Lemma next_previous_in_global_order_witness :
  (forall (i : nat) (c : Chapter),
      global_order courseParts !! i = Some c ->
      getNextChapter courseParts (ch_slug c) = global_order courseParts !! S i
      /\ (S i = length (global_order courseParts) ->
          getNextChapter courseParts (ch_slug c) = None)
      /\ getPreviousChapter courseParts (ch_slug c)
         = match i with
           | O => None
           | S j => global_order courseParts !! j
           end)
  /\ (forall slug : jsstring,
        slug ∉ map ch_slug (global_order courseParts) ->
        getNextChapter courseParts slug = None
        /\ getPreviousChapter courseParts slug = None)
  /\ option_map ch_id (getNextChapter courseParts (js "handling-user-interaction"))
     = Some (js "ch06")
  /\ getNextChapter courseParts (js "performance-production") = None
  /\ getPreviousChapter courseParts (js "what-is-react-native") = None
  /\ getNextChapter courseParts (js "does-not-exist") = None.
Proof.
  pose proof (next_previous_in_global_order courseParts
                ltac:(vm_compute; reflexivity)
                ltac:(apply (bool_decide_unpack _); vm_compute; exact I))
    as [Hknown Hunknown].
  split; [exact Hknown|]. split; [exact Hunknown|].
  split; [|split; [|split]].
  - destruct (global_order courseParts !! 4%nat) as [c|] eqn:Hc;
      [|discriminate].
    destruct (Hknown 4%nat c Hc) as [H _].
    injection Hc as <-. etransitivity; [apply f_equal; exact H|].
    vm_compute. reflexivity.
  - destruct (global_order courseParts !! 16%nat) as [c|] eqn:Hc;
      [|discriminate].
    destruct (Hknown 16%nat c Hc) as (_ & H & _).
    injection Hc as <-. apply H. vm_compute. reflexivity.
  - destruct (global_order courseParts !! 0%nat) as [c|] eqn:Hc;
      [|discriminate].
    destruct (Hknown 0%nat c Hc) as (_ & _ & H).
    injection Hc as <-. exact H.
  - apply (Hunknown (js "does-not-exist")).
    apply (bool_decide_unpack _). vm_compute. exact I.
Defined.

(** C8.  [getAllChapters] lists the chapters of the catalog in the global
    order, by section number and then by chapter number, in which no two
    units have the same place; every chapter of every part is in it, nothing
    else is, and none is in it twice.  It is a function of the catalog
    alone. *)
Theorem getAllChapters_global_order :
  getAllChapters courseParts = global_order courseParts
  /\ keys_increasing (map unit_key (units_of courseParts)) = true
  /\ Permutation (sort_units (units_of courseParts)) (units_of courseParts)
  /\ NoDup (getAllChapters courseParts)
  /\ (forall c : Chapter,
        c ∈ getAllChapters courseParts
        <-> exists p, p ∈ courseParts /\ c ∈ part_chapters p).
Proof.
  assert (Hkeys : keys_increasing (map unit_key (units_of courseParts)) = true)
    by (vm_compute; reflexivity).
  split; [exact (global_order_listed courseParts Hkeys)|].
  split; [exact Hkeys|].
  split; [apply sort_units_permutation|].
  split; [apply (bool_decide_unpack _); vm_compute; exact I|].
  apply getAllChapters_elem.
Qed.

(** ** The generated routes *)

Lemma partNumber_of_thresholds (c : Chapter) :
  (ch_number c <= 6 -> partNumber_of c = 1)
  /\ (6 < ch_number c <= 12 -> partNumber_of c = 2)
  /\ (12 < ch_number c -> partNumber_of c = 3).
Proof.
  unfold partNumber_of.
  destruct (Z.leb_spec (ch_number c) 6), (Z.leb_spec (ch_number c) 12);
    repeat split; intros; try reflexivity; lia.
Qed.

Lemma generateStaticParams_lookup parts (i : nat) :
  generateStaticParams parts !! i
  = (fun c => mkParams (js "part" ++ Number_toString (partNumber_of c)) (ch_slug c))
      <$> getAllChapters parts !! i.
Proof. unfold generateStaticParams. apply list_lookup_fmap. Qed.

(** C10.  The route generated for a chapter has the chapter's slug and the
    part given by the thresholds on its number (at most 6: part 1, at most
    12: part 2, else part 3).  For every chapter of the catalog this is the
    number of the part that holds the chapter, except for ch06, held by part
    2 and generated under part1, and ch12, held by part 3 and generated under
    part2. *)
Theorem generated_route_part :
  (forall c : Chapter,
      (ch_number c <= 6 -> partNumber_of c = 1)
      /\ (6 < ch_number c <= 12 -> partNumber_of c = 2)
      /\ (12 < ch_number c -> partNumber_of c = 3))
  /\ length (generateStaticParams courseParts) = length (getAllChapters courseParts)
  /\ forall (i : nat) (c : Chapter),
      getAllChapters courseParts !! i = Some c ->
      exists (r : RouteParams) (p : CoursePart),
        generateStaticParams courseParts !! i = Some r
        /\ partOf courseParts c = Some p
        /\ rp_slug r = ch_slug c
        /\ rp_part r = js "part" ++ Number_toString (partNumber_of c)
        /\ (rp_part r = js "part" ++ Number_toString (part_number p)
            <-> ch_id c <> js "ch06" /\ ch_id c <> js "ch12")
        /\ (ch_id c = js "ch06" -> rp_part r = js "part1" /\ part_number p = 2)
        /\ (ch_id c = js "ch12" -> rp_part r = js "part2" /\ part_number p = 3).
Proof.
  split; [exact partNumber_of_thresholds|].
  split; [unfold generateStaticParams; apply length_map|].
  intros i c Hi.
  assert (Hall : forallb route_check
                   (zip (getAllChapters courseParts)
                        (generateStaticParams courseParts)) = true)
    by (vm_compute; reflexivity).
  rewrite forallb_forall in Hall.
  pose (r := mkParams (js "part" ++ Number_toString (partNumber_of c)) (ch_slug c)).
  assert (Hr : generateStaticParams courseParts !! i = Some r)
    by (rewrite generateStaticParams_lookup, Hi; reflexivity).
  specialize (Hall (c, r)).
  assert (Hin : In (c, r) (zip (getAllChapters courseParts)
                               (generateStaticParams courseParts))).
  { apply list_elem_of_In. apply list_elem_of_lookup. exists i.
    apply lookup_zip_with_Some. exists c, r. auto. }
  specialize (Hall Hin). unfold route_check in Hall.
  destruct (partOf courseParts c) as [p|]; [|discriminate].
  exists r, p. split; [exact Hr|]. split; [reflexivity|].
  apply andb_true_iff in Hall as [Hall Hcase].
  apply andb_true_iff in Hall as [Hslug Hpart].
  apply str_eqb_eq in Hslug, Hpart.
  split; [exact Hslug|]. split; [exact Hpart|].
  destruct (str_eqb (ch_id c) (js "ch06")) eqn:E6.
  - apply str_eqb_eq in E6. apply andb_true_iff in Hcase as [H1 H2].
    apply str_eqb_eq in H1. apply Z.eqb_eq in H2.
    split; [|split].
    + split; [|intros [? _]; contradiction].
      intros Heq. rewrite H1, H2 in Heq. vm_compute in Heq. discriminate.
    + auto.
    + intros E12. rewrite E6 in E12. vm_compute in E12. discriminate.
  - apply str_eqb_neq in E6.
    destruct (str_eqb (ch_id c) (js "ch12")) eqn:E12.
    + apply str_eqb_eq in E12. apply andb_true_iff in Hcase as [H1 H2].
      apply str_eqb_eq in H1. apply Z.eqb_eq in H2.
      split; [|split].
      * split; [|intros [_ ?]; contradiction].
        intros Heq. rewrite H1, H2 in Heq. vm_compute in Heq. discriminate.
      * intros; contradiction.
      * auto.
    + apply str_eqb_neq in E12. unfold route_agrees in Hcase.
      apply str_eqb_eq in Hcase.
      split; [|split]; [tauto | intros; contradiction | intros; contradiction].
Qed.

Lemma generated_route_part_witness :
  exists (r : RouteParams) (p : CoursePart),
    generateStaticParams courseParts !! 5%nat = Some r
    /\ rp_slug r = js "props"
    /\ rp_part r = js "part1"
    /\ part_number p = 2.
Proof.
  destruct generated_route_part as (_ & _ & H).
  destruct (H 5%nat
              (chapter "ch06" 6 "Props - Passing Data Between Components"
                 "props"
                 "/course_data/Part2-Core-Concepts/Chapter06-Props/README.md")
              eq_refl)
    as (r & p & Hr & _ & Hslug & _ & _ & H6 & _).
  exists r, p. destruct (H6 eq_refl) as [Hpart Hnumber]. auto.
Defined.

(** The links of the sidebar and of the course page name the part that holds
    the chapter: for ch06 and ch12 they name a route that is not generated. *)
Lemma listed_links_not_generated :
  Forall (fun u => linked_params (fst u) (snd u) ∈ generateStaticParams courseParts
                   <-> ch_id (snd u) <> js "ch06" /\ ch_id (snd u) <> js "ch12")
         (units_of courseParts).
Proof.
  apply Forall_forall. intros [p c] Hin. cbn [fst snd].
  assert (Hcheck :
            forallb (fun u =>
                       Bool.eqb
                         (bool_decide (linked_params (fst u) (snd u)
                                       ∈ generateStaticParams courseParts))
                         (negb (str_eqb (ch_id (snd u)) (js "ch06"))
                          && negb (str_eqb (ch_id (snd u)) (js "ch12"))))
                    (units_of courseParts) = true)
    by (vm_compute; reflexivity).
  rewrite forallb_forall in Hcheck.
  specialize (Hcheck (p, c) (proj1 (list_elem_of_In _ _) Hin)).
  cbn [fst snd] in Hcheck. apply Bool.eqb_prop in Hcheck.
  etransitivity; [symmetry; apply bool_decide_eq_true|].
  rewrite Hcheck, andb_true_iff, !negb_true_iff.
  now rewrite !str_eqb_neq.
Qed.

(** ** The route and the part it names *)

(** C2, as stated, fails: [/course/part1/props] is one of the generated
    routes and names part 1, the chapter [props] belongs to part 2, and both
    versions of the page show the chapter; so they do for
    [/course/part3/props]. *)
Lemma part_mismatch_shows_chapter :
  let params := mkParams (js "part1") (js "props") in
  let readFile := fun _ : jsstring => Some (js "# Props") in
  generateStaticParams courseParts !! 5%nat = Some params
  /\ exists (c : Chapter) (p : CoursePart),
      getChapterBySlug courseParts (rp_slug params) = Some c
      /\ partOf courseParts c = Some p
      /\ part_number p = 2
      /\ rp_part params <> js "part" ++ Number_toString (part_number p)
      /\ screen_of courseParts (RouteClient.ChapterPage params) = ChapterScreen c
      /\ screen_of courseParts
           (RouteStatic.ChapterPage courseParts readFile params)
         = ChapterScreen c
      /\ screen_of courseParts
           (RouteClient.ChapterPage (mkParams (js "part3") (js "props")))
         = ChapterScreen c
      /\ screen_of courseParts
           (RouteStatic.ChapterPage courseParts readFile
              (mkParams (js "part3") (js "props")))
         = ChapterScreen c
      /\ ChapterScreen c <> NotFoundScreen.
Proof.
  split; [vm_compute; reflexivity|].
  eexists. eexists.
  split; [vm_compute; reflexivity|].
  split; [vm_compute; reflexivity|].
  split; [reflexivity|].
  split; [vm_compute; discriminate|].
  split; [vm_compute; reflexivity|].
  split; [vm_compute; reflexivity|].
  split; [vm_compute; reflexivity|].
  split; [vm_compute; reflexivity|].
  discriminate.
Qed.

(** C2, amended.  The part named by the route takes no part in the answer,
    which depends on the slug alone: the first version shows its not-found
    card exactly when no chapter has the slug, the second answers not-found
    exactly when no chapter has the slug or the chapter's file cannot be
    read. *)
Theorem route_part_ignored (parts : list CoursePart)
  (readFile : jsstring -> option jsstring) (part part' slug : jsstring) :
  RouteClient.ChapterPage (mkParams part slug)
  = RouteClient.ChapterPage (mkParams part' slug)
  /\ RouteStatic.ChapterPage parts readFile (mkParams part slug)
     = RouteStatic.ChapterPage parts readFile (mkParams part' slug)
  /\ (screen_of parts (RouteClient.ChapterPage (mkParams part slug)) = NotFoundScreen
      <-> getChapterBySlug parts slug = None)
  /\ (RouteStatic.ChapterPage parts readFile (mkParams part slug) = NotFoundPage
      <-> getChapterBySlug parts slug = None
          \/ exists c, getChapterBySlug parts slug = Some c
                       /\ readFile (ch_path c) = None).
Proof.
  split; [reflexivity|]. split; [reflexivity|]. split.
  - unfold RouteClient.ChapterPage, screen_of, ChapterContent_render. simpl.
    destruct (getChapterBySlug parts slug); split; congruence.
  - unfold RouteStatic.ChapterPage. simpl.
    destruct (getChapterBySlug parts slug) as [c|]; [|split; auto].
    destruct (readFile (ch_path c)) eqn:E; split.
    + discriminate.
    + intros [H | (c' & H & H')]; [discriminate|].
      injection H as <-. congruence.
    + intros _. right. exists c. auto.
    + reflexivity.
Qed.

(** ** Catalogs with duplicates *)

Lemma find_first {A} (p : A -> bool) (l : list A) :
  match find p l with
  | Some x =>
    exists i, l !! i = Some x /\ p x = true
              /\ forall j y, (j < i)%nat -> l !! j = Some y -> p y = false
  | None => Forall (fun x => p x = false) l
  end.
Proof.
  induction l as [|a l IH]; simpl; [constructor|].
  destruct (p a) eqn:Ea.
  - exists 0%nat. repeat split; auto. intros j y Hj. lia.
  - destruct (find p l) as [x|].
    + destruct IH as (i & Hi & Hx & Hbefore). exists (S i).
      repeat split; auto. intros [|j] y Hj Hy.
      * injection Hy as <-. exact Ea.
      * apply (Hbefore j y); [lia | exact Hy].
    + constructor; assumption.
Qed.

(** C3, as stated, fails: a catalog whose two chapters share identifier and
    slug is accepted as it is, and the lookups answer on it. *)
Lemma duplicates_accepted :
  let first := chapter "ch01" 1 "First" "intro" "/first.md" in
  let second := chapter "ch01" 2 "Second" "intro" "/second.md" in
  getAllChapters twin_catalog = [first; second]
  /\ ch_id first = ch_id second
  /\ ch_slug first = ch_slug second
  /\ module_init twin_catalog = Returns twin_catalog
  /\ getChapterBySlug twin_catalog (js "intro") = Some first
  /\ getNextChapter twin_catalog (js "intro") = Some second
  /\ getNextChapter twin_catalog (ch_slug second) = Some second.
Proof. vm_compute. repeat split. Qed.

(** C3, amended.  Nothing validates a catalog: whatever the literal holds is
    the catalog.  [getChapterBySlug] answers with the first chapter that has
    the slug in the order in which the catalog lists its chapters, part
    after part as [getAllChapters] gives them, and with nothing exactly when
    no chapter has it.  In the catalog of the repository no two chapters
    share an identifier, a slug or a number. *)
Theorem catalog_not_validated :
  (forall literal : list CoursePart, module_init literal = Returns literal)
  /\ (forall (parts : list CoursePart) (slug : jsstring),
        match getChapterBySlug parts slug with
        | Some c =>
          exists i : nat,
            getAllChapters parts !! i = Some c
            /\ ch_slug c = slug
            /\ forall (j : nat) (d : Chapter),
                (j < i)%nat -> getAllChapters parts !! j = Some d ->
                ch_slug d <> slug
        | None => slug ∉ map ch_slug (getAllChapters parts)
        end)
  /\ NoDup (map ch_id (getAllChapters courseParts))
  /\ NoDup (map ch_slug (getAllChapters courseParts))
  /\ NoDup (map ch_number (getAllChapters courseParts)).
Proof.
  split; [reflexivity|]. split.
  - intros parts slug. unfold getChapterBySlug.
    pose proof (find_first (fun ch => str_eqb (ch_slug ch) slug)
                  (getAllChapters parts)) as H.
    destruct (find _ _) as [c|].
    + destruct H as (i & Hi & Hc & Hbefore). exists i.
      split; [exact Hi|]. split; [now apply str_eqb_eq|].
      intros j d Hj Hd. apply str_eqb_neq. eauto.
    + intros Hin. apply list_elem_of_fmap in Hin as (c & -> & Hc).
      rewrite Forall_forall in H. specialize (H c Hc).
      now rewrite str_eqb_refl in H.
  - repeat split; apply (bool_decide_unpack _); vm_compute; exact I.
Qed.

Lemma catalog_not_validated_witness :
  module_init twin_catalog = Returns twin_catalog
  /\ match getChapterBySlug twin_catalog (js "intro") with
     | Some c =>
       exists i : nat,
         getAllChapters twin_catalog !! i = Some c
         /\ ch_slug c = js "intro"
         /\ forall (j : nat) (d : Chapter),
             (j < i)%nat -> getAllChapters twin_catalog !! j = Some d ->
             ch_slug d <> js "intro"
     | None => js "intro" ∉ map ch_slug (getAllChapters twin_catalog)
     end.
Proof.
  destruct catalog_not_validated as (Hinit & Hfind & _).
  split; [apply Hinit|].
  exact (Hfind twin_catalog (js "intro")).
Defined.

(** ** JSON: what is printed is read back *)

Module JsonFacts.
Local Open Scope N_scope.

Lemma hex_val_digit (d : N) : d < 16 -> hex_val (hex_digit d) = Some d.
Proof.
  intros Hd. unfold hex_digit, hex_val.
  destruct (N.ltb_spec d 10).
  - destruct (N.leb_spec 48 (48 + d)); [|lia].
    destruct (N.leb_spec (48 + d) 57); [|lia].
    simpl. f_equal. lia.
  - destruct (N.leb_spec 48 (87 + d)); [|lia].
    destruct (N.leb_spec (87 + d) 57); [lia|].
    destruct (N.leb_spec 97 (87 + d)); [|lia].
    destruct (N.leb_spec (87 + d) 102); [|lia].
    simpl. f_equal. lia.
Qed.

Lemma hex4_digits (c : N) :
  c < 65536 ->
  hex4 (hex_digit (c / 4096 mod 16)) (hex_digit (c / 256 mod 16))
       (hex_digit (c / 16 mod 16)) (hex_digit (c mod 16)) = Some c.
Proof.
  intros Hc. unfold hex4.
  rewrite !hex_val_digit by (apply N.mod_lt; discriminate).
  f_equal.
  assert (E1 : c / 16 / 16 = c / 256) by (rewrite N.Div0.div_div; reflexivity).
  assert (E2 : c / 256 / 16 = c / 4096) by (rewrite N.Div0.div_div; reflexivity).
  pose proof (N.div_mod c 16 ltac:(discriminate)) as H0.
  pose proof (N.div_mod (c / 16) 16 ltac:(discriminate)) as H1.
  pose proof (N.div_mod (c / 256) 16 ltac:(discriminate)) as H2.
  rewrite E1 in H1. rewrite E2 in H2.
  assert (H3 : c / 4096 mod 16 = c / 4096).
  { apply N.mod_small. apply N.Div0.div_lt_upper_bound. lia. }
  rewrite H3. lia.
Qed.

Lemma parse_chars_plain (c : N) (s : jsstring) :
  c <> 34 -> c <> 92 -> 32 <= c ->
  parse_chars (c :: s) = cons_fst c (parse_chars s).
Proof.
  intros H34 H92 H32. simpl.
  destruct (N.eqb_spec c 34); [contradiction|].
  destruct (N.eqb_spec c 92); [contradiction|].
  destruct (N.ltb_spec c 32); [lia|]. reflexivity.
Qed.

Lemma parse_chars_unicode_escape (c : N) (s : jsstring) :
  c < 65536 ->
  parse_chars (unicode_escape c ++ s) = cons_fst c (parse_chars s).
Proof.
  intros Hc. unfold unicode_escape.
  change (parse_chars ([92; 117; hex_digit (c / 4096 mod 16);
                        hex_digit (c / 256 mod 16); hex_digit (c / 16 mod 16);
                        hex_digit (c mod 16)] ++ s))
    with (match hex4 (hex_digit (c / 4096 mod 16)) (hex_digit (c / 256 mod 16))
                     (hex_digit (c / 16 mod 16)) (hex_digit (c mod 16)) with
          | Some u => cons_fst u (parse_chars s)
          | None => None
          end).
  now rewrite hex4_digits.
Qed.

Lemma surrogate_bounds (c : N) :
  is_lead c || is_trail c = true -> 0xD800 <= c /\ c <= 0xDFFF.
Proof.
  unfold is_lead, is_trail. intros H.
  apply orb_true_iff in H as [H | H]; apply andb_true_iff in H as [H1 H2];
    apply N.leb_le in H1, H2; lia.
Qed.

Lemma parse_chars_quote_unit (c : N) (s : jsstring) :
  parse_chars (quote_unit c ++ s) = cons_fst c (parse_chars s).
Proof.
  unfold quote_unit.
  destruct (N.eqb_spec c 8) as [->|]; [reflexivity|].
  destruct (N.eqb_spec c 9) as [->|]; [reflexivity|].
  destruct (N.eqb_spec c 10) as [->|]; [reflexivity|].
  destruct (N.eqb_spec c 12) as [->|]; [reflexivity|].
  destruct (N.eqb_spec c 13) as [->|]; [reflexivity|].
  destruct (N.eqb_spec c 34) as [->|]; [reflexivity|].
  destruct (N.eqb_spec c 92) as [->|]; [reflexivity|].
  destruct ((c <? 32) || is_lead c || is_trail c) eqn:E.
  - apply parse_chars_unicode_escape.
    rewrite <- orb_assoc in E. apply orb_true_iff in E as [E | E].
    + apply N.ltb_lt in E. lia.
    + apply surrogate_bounds in E. lia.
  - apply orb_false_iff in E as [E _]. apply orb_false_iff in E as [E _].
    apply N.ltb_ge in E. now apply parse_chars_plain.
Qed.

Lemma parse_chars_quote_units (s r : jsstring) :
  parse_chars (quote_units s ++ 34 :: r) = Some (s, r).
Proof.
  remember (length s) as n eqn:Hn.
  revert s Hn. induction (lt_wf n) as [n _ IH]. intros s Hn.
  destruct s as [|c rest]; [reflexivity|].
  assert (Hstep : parse_chars (quote_units rest ++ 34 :: r) = Some (rest, r))
    by (apply (IH (length rest)); [subst; simpl; lia | reflexivity]).
  simpl. destruct (is_lead c) eqn:Elead.
  - destruct rest as [|d rest'].
    + rewrite parse_chars_quote_unit. reflexivity.
    + destruct (is_trail d) eqn:Etrail.
      * assert (Hc : 0xD800 <= c /\ c <= 0xDFFF)
          by (apply surrogate_bounds; now rewrite Elead).
        assert (Hd : 0xD800 <= d /\ d <= 0xDFFF)
          by (apply surrogate_bounds; rewrite Etrail; apply orb_true_r).
        cbn [app].
        rewrite (parse_chars_plain c) by lia.
        rewrite (parse_chars_plain d) by lia.
        rewrite (IH (length rest')); [reflexivity | subst; simpl; lia | reflexivity].
      * rewrite <- app_assoc, parse_chars_quote_unit, Hstep. reflexivity.
  - rewrite <- app_assoc, parse_chars_quote_unit, Hstep. reflexivity.
Qed.

Lemma skip_ws_not_ws (c : N) (s : jsstring) :
  is_ws c = false -> skip_ws (c :: s) = c :: s.
Proof. intros H. simpl. now rewrite H. Qed.

Lemma parse_value_quote (fuel : nat) (s r : jsstring) :
  parse_value (S fuel) (quote s ++ r) = Parsed (JString s, r).
Proof.
  unfold quote. cbn [app parse_value].
  rewrite skip_ws_not_ws by reflexivity.
  change (34 =? 34) with true. cbv iota.
  rewrite <- app_assoc. cbn [app].
  rewrite parse_chars_quote_units. reflexivity.
Qed.

Lemma parse_elements_S (fuel : nat) (s : jsstring) :
  parse_elements (S fuel) s
  = rbind (parse_value fuel s) (fun '(v, r) =>
    match skip_ws r with
    | [] => Invalid
    | c :: r' =>
      if c =? 44 then
        rbind (parse_elements fuel r') (fun '(l, r'') => Parsed (v :: l, r''))
      else if c =? 93 then Parsed ([v], r')
      else Invalid
    end).
Proof. reflexivity. Qed.

Lemma parse_elements_quoted (l : list jsstring) :
  l <> [] ->
  forall (fuel : nat) (r : jsstring),
    (2 * length l <= fuel)%nat ->
    parse_elements fuel (join_comma (map quote l) ++ 93 :: r)
    = Parsed (map JString l, r).
Proof.
  induction l as [|x l IH]; [congruence|]. intros _ fuel r Hfuel.
  destruct fuel as [|[|fuel]]; [simpl in Hfuel; lia | simpl in Hfuel; lia|].
  rewrite parse_elements_S.
  destruct l as [|y l].
  - cbn [map join_comma].
    rewrite parse_value_quote. cbn [rbind].
    rewrite skip_ws_not_ws by reflexivity. reflexivity.
  - change (join_comma (map quote (x :: y :: l)))
      with (quote x ++ 44 :: join_comma (map quote (y :: l))).
    rewrite <- app_assoc.
    rewrite parse_value_quote. cbn [rbind app].
    rewrite skip_ws_not_ws by reflexivity.
    change (44 =? 44) with true. cbv iota.
    rewrite IH; [reflexivity | discriminate | simpl in *; lia].
Qed.

Lemma join_comma_quote_length (l : list jsstring) :
  (length l <= length (join_comma (map quote l)))%nat.
Proof.
  induction l as [|x l IH]; [simpl; lia|].
  destruct l as [|y l].
  - unfold quote. simpl. lia.
  - change (join_comma (map quote (x :: y :: l)))
      with (quote x ++ 44 :: join_comma (map quote (y :: l))).
    rewrite length_app. cbn [length] in *. lia.
Qed.

Lemma stringify_strings (l : list jsstring) :
  JSON_stringify (JArray (map JString l))
  = 91 :: join_comma (map quote l) ++ [93].
Proof. simpl. now rewrite map_map. Qed.

(** An array of strings, printed and parsed, is itself. *)
Lemma parse_stringify_strings (l : list jsstring) :
  JSON_parse (JSON_stringify (JArray (map JString l)))
  = Returns (JArray (map JString l)).
Proof.
  rewrite stringify_strings. unfold JSON_parse, fuel_for.
  set (text := 91 :: join_comma (map quote l) ++ [93]).
  assert (Hlen : (length l < length text)%nat).
  { unfold text. cbn [length]. rewrite length_app.
    pose proof (join_comma_quote_length l). simpl. lia. }
  destruct (2 * length text + 2)%nat as [|fuel] eqn:Hfuel; [lia|].
  unfold text. cbn [parse_value]. rewrite skip_ws_not_ws by reflexivity.
  change (91 =? 34) with false. change (91 =? 91) with true. cbv iota.
  destruct l as [|x l].
  - reflexivity.
  - assert (Hhead : exists t, join_comma (map quote (x :: l)) ++ [93]
                              = 34 :: t).
    { destruct l; cbn [map join_comma]; unfold quote; simpl; eauto. }
    destruct Hhead as [t Ht]. rewrite Ht.
    rewrite skip_ws_not_ws by reflexivity.
    change (34 =? 93) with false. cbv iota. rewrite <- Ht.
    rewrite parse_elements_quoted; [reflexivity | discriminate | lia].
Qed.


(** *** The counter never runs out *)

Lemma skip_ws_length (s : jsstring) : (length (skip_ws s) <= length s)%nat.
Proof.
  induction s as [|c s IH]; simpl; [lia|].
  destruct (is_ws c); simpl; lia.
Qed.

Lemma skip_ws_cons_length (s : jsstring) (c : N) (r : jsstring) :
  skip_ws s = c :: r -> (length r < length s)%nat.
Proof.
  intros H. pose proof (skip_ws_length s) as Hlen. rewrite H in Hlen.
  simpl in Hlen. lia.
Qed.

Lemma cons_fst_Some {A B} (a : A) (o : option (list A * B)) l b :
  cons_fst a o = Some (l, b) -> exists l', o = Some (l', b) /\ l = a :: l'.
Proof.
  destruct o as [[l' b']|]; simpl; [|discriminate].
  intros H. injection H as <- <-. eauto.
Qed.

Lemma parse_chars_length (s str r : jsstring) :
  parse_chars s = Some (str, r) -> (length r < length s)%nat.
Proof.
  remember (length s) as n eqn:Hn.
  revert s str r Hn. induction (lt_wf n) as [n _ IH]. intros s str r Hn H.
  destruct s as [|c rest]; [discriminate|]. simpl in H.
  destruct (c =? 34).
  { injection H as _ <-. subst. simpl. lia. }
  destruct (c =? 92).
  - destruct rest as [|e rest1]; [discriminate|].
    destruct (e =? 117).
    + destruct rest1 as [|h1 [|h2 [|h3 [|h4 rest2]]]]; try discriminate.
      destruct (hex4 h1 h2 h3 h4); [|discriminate].
      apply cons_fst_Some in H as (l' & H & _).
      apply (IH (length rest2)) in H; subst; simpl in *; lia.
    + destruct (unescape e); [|discriminate].
      apply cons_fst_Some in H as (l' & H & _).
      apply (IH (length rest1)) in H; subst; simpl in *; lia.
  - destruct (c <? 32); [discriminate|].
    apply cons_fst_Some in H as (l' & H & _).
    apply (IH (length rest)) in H; subst; simpl in *; lia.
Qed.

Lemma span_digits_length (s : jsstring) :
  (length (snd (span_digits s)) <= length s)%nat.
Proof.
  induction s as [|c s IH]; simpl; [lia|].
  destruct (is_digit c); [|simpl; lia].
  destruct (span_digits s); simpl in *. lia.
Qed.

Lemma strip_prefix_length (p s r : jsstring) :
  strip_prefix p s = Some r -> length s = (length p + length r)%nat.
Proof.
  revert s. induction p as [|a p IH]; intros s H; simpl in *.
  - now injection H as ->.
  - destruct s as [|b s]; [discriminate|].
    destruct (a =? b); [|discriminate]. simpl. rewrite (IH s H). lia.
Qed.

Lemma parse_int_length (s i r : jsstring) :
  parse_int s = Some (i, r) -> (length r < length s)%nat.
Proof.
  destruct s as [|c s]; simpl; [discriminate|].
  destruct (c =? 48).
  - intros H. injection H as _ <-. lia.
  - destruct (is_digit c); [|discriminate].
    pose proof (span_digits_length s) as Hlen.
    destruct (span_digits s). intros H. injection H as _ <-. simpl in Hlen. lia.
Qed.

Lemma parse_frac_length (s f r : jsstring) :
  parse_frac s = Some (f, r) -> (length r <= length s)%nat.
Proof.
  destruct s as [|c s]; simpl.
  - intros H. now injection H as _ <-.
  - destruct (c =? 46).
    + pose proof (span_digits_length s) as Hlen.
      destruct (span_digits s) as [[|d ds] r']; [discriminate|].
      intros H. injection H as _ <-. simpl in Hlen. lia.
    + intros H. now injection H as _ <-.
Qed.

Lemma parse_exp_length (s e r : jsstring) :
  parse_exp s = Some (e, r) -> (length r <= length s)%nat.
Proof.
  destruct s as [|c s]; simpl.
  - intros H. now injection H as _ <-.
  - destruct ((c =? 101) || (c =? 69)).
    + destruct s as [|d t].
      * simpl. discriminate.
      * destruct ((d =? 43) || (d =? 45)).
        -- pose proof (span_digits_length t) as Hlen.
           destruct (span_digits t) as [[|x xs] r']; [discriminate|].
           intros H. injection H as _ <-. simpl in *. lia.
        -- pose proof (span_digits_length (d :: t)) as Hlen.
           destruct (span_digits (d :: t)) as [[|x xs] r']; [discriminate|].
           intros H. injection H as _ <-. simpl in *. lia.
    + intros H. now injection H as _ <-.
Qed.

Lemma parse_number_length (s n r : jsstring) :
  parse_number s = Some (n, r) -> (length r < length s)%nat.
Proof.
  unfold parse_number.
  assert (Hsign : forall s1 sign,
             (length s1 <= length s)%nat ->
             match parse_int s1 with
             | Some (i, s2) =>
               match parse_frac s2 with
               | Some (f, s3) =>
                 match parse_exp s3 with
                 | Some (e, s4) => Some (sign ++ i ++ f ++ e, s4)
                 | None => None
                 end
               | None => None
               end
             | None => None
             end = Some (n, r) -> (length r < length s)%nat).
  { intros s1 sign Hs1 H.
    destruct (parse_int s1) as [[i s2]|] eqn:Ei; [|discriminate].
    destruct (parse_frac s2) as [[f s3]|] eqn:Ef; [|discriminate].
    destruct (parse_exp s3) as [[e s4]|] eqn:Ee; [|discriminate].
    injection H as _ <-.
    apply parse_int_length in Ei. apply parse_frac_length in Ef.
    apply parse_exp_length in Ee. lia. }
  destruct s as [|c t].
  - apply Hsign. lia.
  - destruct (c =? 45); apply Hsign; simpl; lia.
Qed.

Lemma parse_literal_length (s : jsstring) v r :
  parse_literal s = Parsed (v, r) -> (length r < length s)%nat.
Proof.
  unfold parse_literal.
  destruct (strip_prefix (js "null") s) eqn:E1.
  { intros H. injection H as _ <-. apply strip_prefix_length in E1.
    simpl in E1. lia. }
  destruct (strip_prefix (js "true") s) eqn:E2.
  { intros H. injection H as _ <-. apply strip_prefix_length in E2.
    simpl in E2. lia. }
  destruct (strip_prefix (js "false") s) eqn:E3.
  { intros H. injection H as _ <-. apply strip_prefix_length in E3.
    simpl in E3. lia. }
  destruct (parse_number s) as [[n r']|] eqn:E4; [|discriminate].
  intros H. injection H as _ <-. now apply parse_number_length in E4.
Qed.

Lemma rbind_Parsed {A B} (m : res A) (k : A -> res B) (b : B) :
  rbind m k = Parsed b -> exists a, m = Parsed a /\ k a = Parsed b.
Proof. destruct m; simpl; try discriminate. eauto. Qed.

Lemma of_option_Parsed {A} (o : option A) (a : A) :
  of_option o = Parsed a -> o = Some a.
Proof. destruct o; simpl; congruence. Qed.

Lemma parse_value_S (fuel : nat) (s : jsstring) :
  parse_value (S fuel) s
  = match skip_ws s with
    | [] => Invalid
    | c :: rest =>
      if c =? 34 then
        rbind (of_option (parse_chars rest)) (fun '(str, r) =>
        Parsed (JString str, r))
      else if c =? 91 then
        match skip_ws rest with
        | [] => Invalid
        | c' :: r' =>
          if c' =? 93 then Parsed (JArray [], r')
          else rbind (parse_elements fuel rest) (fun '(l, r) =>
               Parsed (JArray l, r))
        end
      else if c =? 123 then
        match skip_ws rest with
        | [] => Invalid
        | c' :: r' =>
          if c' =? 125 then Parsed (JObject [], r')
          else rbind (parse_members fuel rest) (fun '(l, r) =>
               Parsed (JObject l, r))
        end
      else parse_literal (c :: rest)
    end.
Proof. reflexivity. Qed.

Lemma parse_members_S (fuel : nat) (s : jsstring) :
  parse_members (S fuel) s
  = match skip_ws s with
    | [] => Invalid
    | q :: r0 =>
      if q =? 34 then
        rbind (of_option (parse_chars r0)) (fun '(k, r1) =>
        match skip_ws r1 with
        | [] => Invalid
        | c1 :: r2 =>
          if c1 =? 58 then
            rbind (parse_value fuel r2) (fun '(v, r3) =>
            match skip_ws r3 with
            | [] => Invalid
            | c3 :: r4 =>
              if c3 =? 44 then
                rbind (parse_members fuel r4) (fun '(l, r5) =>
                Parsed ((k, v) :: l, r5))
              else if c3 =? 125 then Parsed ([(k, v)], r4)
              else Invalid
            end)
          else Invalid
        end)
      else Invalid
    end.
Proof. reflexivity. Qed.

(** Every parser consumes something. *)
Lemma parse_consumes (fuel : nat) :
  (forall s v r, parse_value fuel s = Parsed (v, r) ->
                 (length r < length s)%nat)
  /\ (forall s l r, parse_elements fuel s = Parsed (l, r) ->
                    (length r < length s)%nat)
  /\ (forall s l r, parse_members fuel s = Parsed (l, r) ->
                    (length r < length s)%nat).
Proof.
  induction fuel as [|fuel (IHv & IHe & IHm)];
    [repeat split; intros; discriminate|].
  split; [|split].
  - intros s v r. rewrite parse_value_S.
    destruct (skip_ws s) as [|c rest] eqn:Es; [discriminate|].
    apply skip_ws_cons_length in Es.
    destruct (c =? 34).
    { intros H. apply rbind_Parsed in H as ([str r'] & H & Hk).
      injection Hk as _ <-. apply of_option_Parsed, parse_chars_length in H.
      lia. }
    destruct (c =? 91).
    { destruct (skip_ws rest) as [|c' r'] eqn:Er; [discriminate|].
      apply skip_ws_cons_length in Er.
      destruct (c' =? 93).
      - intros H. injection H as _ <-. lia.
      - intros H. apply rbind_Parsed in H as ([l r''] & H & Hk).
        injection Hk as _ <-. apply IHe in H. lia. }
    destruct (c =? 123).
    { destruct (skip_ws rest) as [|c' r'] eqn:Er; [discriminate|].
      apply skip_ws_cons_length in Er.
      destruct (c' =? 125).
      - intros H. injection H as _ <-. lia.
      - intros H. apply rbind_Parsed in H as ([l r''] & H & Hk).
        injection Hk as _ <-. apply IHm in H. lia. }
    intros H. apply parse_literal_length in H. simpl in H. lia.
  - intros s l r. rewrite parse_elements_S. intros H.
    apply rbind_Parsed in H as ([v r1] & Hv & H). apply IHv in Hv.
    destruct (skip_ws r1) as [|c r'] eqn:Er; [discriminate|].
    apply skip_ws_cons_length in Er.
    destruct (c =? 44).
    + apply rbind_Parsed in H as ([l' r''] & He & H). injection H as _ <-.
      apply IHe in He. lia.
    + destruct (c =? 93); [|discriminate]. injection H as _ <-. lia.
  - intros s l r. rewrite parse_members_S.
    destruct (skip_ws s) as [|q r0] eqn:Es; [discriminate|].
    apply skip_ws_cons_length in Es.
    destruct (q =? 34); [|discriminate]. intros H.
    apply rbind_Parsed in H as ([k r1] & Hk & H).
    apply of_option_Parsed, parse_chars_length in Hk.
    destruct (skip_ws r1) as [|c1 r2] eqn:E1; [discriminate|].
    apply skip_ws_cons_length in E1.
    destruct (c1 =? 58); [|discriminate].
    apply rbind_Parsed in H as ([v r3] & Hv & H). apply IHv in Hv.
    destruct (skip_ws r3) as [|c3 r4] eqn:E3; [discriminate|].
    apply skip_ws_cons_length in E3.
    destruct (c3 =? 44).
    + apply rbind_Parsed in H as ([l' r5] & Hm & H). injection H as _ <-.
      apply IHm in Hm. lia.
    + destruct (c3 =? 125); [|discriminate]. injection H as _ <-. lia.
Qed.

Lemma rbind_fuel {A B} (m : res A) (k : A -> res B) :
  m <> NoFuel -> (forall a, m = Parsed a -> k a <> NoFuel) ->
  rbind m k <> NoFuel.
Proof. destruct m; simpl; intros Hm Hk; [now apply Hk | discriminate | congruence]. Qed.

Lemma of_option_fuel {A} (o : option A) : of_option o <> NoFuel.
Proof. destruct o; discriminate. Qed.

Lemma parse_literal_fuel (s : jsstring) : parse_literal s <> NoFuel.
Proof.
  unfold parse_literal.
  repeat match goal with
         | |- context [match ?x with _ => _ end] => destruct x as [[? ?]|] || destruct x
         end; discriminate.
Qed.

(** With a counter of twice the length of the text and two, no parser stops
    for want of it. *)
Lemma parse_fuel (fuel : nat) :
  (forall s, (2 * length s + 2 <= fuel)%nat -> parse_value fuel s <> NoFuel)
  /\ (forall s, (2 * length s + 3 <= fuel)%nat -> parse_elements fuel s <> NoFuel)
  /\ (forall s, (2 * length s + 3 <= fuel)%nat -> parse_members fuel s <> NoFuel).
Proof.
  induction fuel as [|fuel (IHv & IHe & IHm)];
    [repeat split; intros; lia|].
  pose proof (parse_consumes fuel) as (Cv & Ce & Cm).
  split; [|split].
  - intros s Hs. rewrite parse_value_S.
    destruct (skip_ws s) as [|c rest] eqn:Es; [discriminate|].
    apply skip_ws_cons_length in Es.
    destruct (c =? 34).
    { apply rbind_fuel; [apply of_option_fuel|]. intros [? ?] _. discriminate. }
    destruct (c =? 91).
    { destruct (skip_ws rest) as [|c' r'] eqn:Er; [discriminate|].
      destruct (c' =? 93); [discriminate|].
      apply rbind_fuel; [apply IHe; lia|]. intros [? ?] _. discriminate. }
    destruct (c =? 123).
    { destruct (skip_ws rest) as [|c' r'] eqn:Er; [discriminate|].
      destruct (c' =? 125); [discriminate|].
      apply rbind_fuel; [apply IHm; lia|]. intros [? ?] _. discriminate. }
    apply parse_literal_fuel.
  - intros s Hs. rewrite parse_elements_S.
    apply rbind_fuel; [apply IHv; lia|]. intros [v r1] Hv. apply Cv in Hv.
    destruct (skip_ws r1) as [|c r'] eqn:Er; [discriminate|].
    apply skip_ws_cons_length in Er.
    destruct (c =? 44).
    + apply rbind_fuel; [apply IHe; lia|]. intros [? ?] _. discriminate.
    + destruct (c =? 93); discriminate.
  - intros s Hs. rewrite parse_members_S.
    destruct (skip_ws s) as [|q r0] eqn:Es; [discriminate|].
    apply skip_ws_cons_length in Es.
    destruct (q =? 34); [|discriminate].
    apply rbind_fuel; [apply of_option_fuel|]. intros [k r1] Hk.
    apply of_option_Parsed, parse_chars_length in Hk.
    destruct (skip_ws r1) as [|c1 r2] eqn:E1; [discriminate|].
    apply skip_ws_cons_length in E1.
    destruct (c1 =? 58); [|discriminate].
    apply rbind_fuel; [apply IHv; lia|]. intros [v r3] Hv. apply Cv in Hv.
    destruct (skip_ws r3) as [|c3 r4] eqn:E3; [discriminate|].
    apply skip_ws_cons_length in E3.
    destruct (c3 =? 44).
    + apply rbind_fuel; [apply IHm; lia|]. intros [? ?] _. discriminate.
    + destruct (c3 =? 125); discriminate.
Qed.

(** So a [SyntaxError] of [JSON_parse] is never for want of fuel. *)
Lemma JSON_parse_fuel (text : jsstring) :
  parse_value (fuel_for text) text <> NoFuel.
Proof. apply parse_fuel. unfold fuel_for. lia. Qed.

End JsonFacts.

(** ** Sets of strings *)

Lemma set_has_strings (l : list jsstring) (x : jsstring) :
  set_has (map JString l) (JString x) = bool_decide (x ∈ l).
Proof.
  unfold set_has. induction l as [|y l IH]; simpl.
  - reflexivity.
  - rewrite IH. unfold str_eqb.
    destruct (decide (x = y)) as [->|Hne].
    + rewrite bool_decide_eq_true_2 by reflexivity. simpl.
      symmetry. apply bool_decide_eq_true. left.
    + rewrite (bool_decide_eq_false_2 (x = y)) by exact Hne. simpl.
      apply bool_decide_ext. rewrite elem_of_cons. tauto.
Qed.

Lemma set_add_strings (l : list jsstring) (x : jsstring) :
  set_add (map JString l) (JString x) = map JString (ids_add l x).
Proof.
  unfold set_add, ids_add. rewrite set_has_strings.
  destruct (bool_decide (x ∈ l)); [reflexivity|].
  now rewrite map_app.
Qed.

Lemma set_delete_strings (l : list jsstring) (x : jsstring) :
  set_delete (map JString l) (JString x) = map JString (ids_delete l x).
Proof.
  unfold set_delete, ids_delete. induction l as [|y l IH]; [reflexivity|].
  cbn [map]. rewrite !filter_cons. cbn [same_value_zero].
  destruct (str_eqb x y).
  - rewrite !decide_False by (simpl; tauto). exact IH.
  - rewrite !decide_True by (simpl; tauto). cbn [map]. f_equal. exact IH.
Qed.

Lemma fold_set_add_strings (l acc : list jsstring) :
  fold_left set_add (map JString l) (map JString acc)
  = map JString (fold_left ids_add l acc).
Proof.
  revert acc. induction l as [|x l IH]; intros acc; [reflexivity|].
  simpl. rewrite set_add_strings. apply IH.
Qed.

Lemma new_Set_strings (l : list jsstring) :
  new_Set (JArray (map JString l)) = Returns (map JString (ids_of l)).
Proof. simpl. f_equal. apply (fold_set_add_strings l []). Qed.

Lemma ids_add_elem (l : list jsstring) (x y : jsstring) :
  y ∈ ids_add l x <-> y ∈ l \/ y = x.
Proof.
  unfold ids_add. destruct (bool_decide_reflect (x ∈ l)) as [Hin | Hnot].
  - split; [auto|]. intros [H | ->]; assumption.
  - rewrite elem_of_app, list_elem_of_singleton. tauto.
Qed.

Lemma ids_add_NoDup (l : list jsstring) (x : jsstring) :
  NoDup l -> NoDup (ids_add l x).
Proof.
  intros Hl. unfold ids_add.
  destruct (bool_decide_reflect (x ∈ l)) as [Hin | Hnot]; [exact Hl|].
  apply NoDup_app. split; [exact Hl|]. split.
  - intros y Hy Hyx. apply list_elem_of_singleton in Hyx as ->. auto.
  - apply NoDup_singleton.
Qed.

Lemma ids_delete_elem (l : list jsstring) (x y : jsstring) :
  y ∈ ids_delete l x <-> y ∈ l /\ y <> x.
Proof.
  unfold ids_delete. rewrite list_elem_of_filter.
  destruct (str_eqb x y) eqn:E; simpl.
  - apply str_eqb_eq in E. subst. split; [intros [[] _] | intros [_ H]; congruence].
  - apply str_eqb_neq in E. split; intros [? ?]; split; auto; congruence.
Qed.

Lemma ids_delete_NoDup (l : list jsstring) (x : jsstring) :
  NoDup l -> NoDup (ids_delete l x).
Proof. intros Hl. unfold ids_delete. now apply NoDup_filter. Qed.

Lemma fold_ids_add (l acc : list jsstring) :
  NoDup acc ->
  NoDup (fold_left ids_add l acc)
  /\ forall y, y ∈ fold_left ids_add l acc <-> y ∈ acc \/ y ∈ l.
Proof.
  revert acc. induction l as [|x l IH]; intros acc Hacc; simpl.
  - split; [exact Hacc|]. intros y. rewrite elem_of_nil. tauto.
  - destruct (IH (ids_add acc x) (ids_add_NoDup _ _ Hacc)) as [Hnd Hel].
    split; [exact Hnd|]. intros y. rewrite Hel, ids_add_elem, elem_of_cons.
    tauto.
Qed.

Lemma ids_of_NoDup (l : list jsstring) : NoDup (ids_of l).
Proof. apply (fold_ids_add l []). constructor. Qed.

Lemma ids_of_elem (l : list jsstring) (y : jsstring) : y ∈ ids_of l <-> y ∈ l.
Proof.
  unfold ids_of. destruct (fold_ids_add l [] (NoDup_nil_2)) as [_ H].
  rewrite H, elem_of_nil. tauto.
Qed.

Lemma fold_ids_add_NoDup (l acc : list jsstring) :
  NoDup (acc ++ l) -> fold_left ids_add l acc = acc ++ l.
Proof.
  revert acc. induction l as [|x l IH]; intros acc Hnd; simpl.
  - now rewrite app_nil_r.
  - assert (Hx : x ∉ acc).
    { apply NoDup_app in Hnd as (_ & Hdisj & _). intros Hin.
      apply (Hdisj x Hin). left. }
    unfold ids_add at 2. rewrite bool_decide_eq_false_2 by exact Hx.
    rewrite IH; rewrite <- app_assoc; [reflexivity | exact Hnd].
Qed.

Lemma ids_of_NoDup_id (l : list jsstring) : NoDup l -> ids_of l = l.
Proof. intros H. apply (fold_ids_add_NoDup l []). exact H. Qed.

(** ** Reading and writing the stored record *)

Lemma parse_set_stringify (l : list jsstring) :
  parse_set (JSON_stringify (JArray (map JString l)))
  = Returns (map JString (ids_of l)).
Proof.
  unfold parse_set. rewrite JsonFacts.parse_stringify_strings.
  apply new_Set_strings.
Qed.

Lemma stringify_nonempty (v : list JSValue) : JSON_stringify (JArray v) <> [].
Proof. discriminate. Qed.

(** What the three readers of the storage compute from a stored record. *)
Lemma read_stored (st : Storage) (l : list jsstring) :
  stores st l ->
  (if truthy (getItem st completedChapters_key)
   then parse_set (default [] (getItem st completedChapters_key))
   else Returns [])
  = Returns (map JString (ids_of l)).
Proof.
  unfold stores. destruct (getItem st completedChapters_key) as [[|c s]|].
  - intros ->. reflexivity.
  - intros H. simpl. unfold parse_set. rewrite H. apply new_Set_strings.
  - intros ->. reflexivity.
Qed.

Lemma stores_setItem (st : Storage) (l : list jsstring) :
  NoDup l ->
  stores (setItem st completedChapters_key
            (JSON_stringify (JArray (map JString l)))) l.
Proof.
  intros Hl. unfold stores, getItem, setItem. rewrite lookup_insert_eq.
  destruct (JSON_stringify (JArray (map JString l))) eqn:E;
    [discriminate|].
  rewrite <- E. apply JsonFacts.parse_stringify_strings.
Qed.

Lemma toggled_record_NoDup l flag unitId : NoDup (toggled_record l flag unitId).
Proof.
  unfold toggled_record. destruct flag.
  - apply ids_delete_NoDup, ids_of_NoDup.
  - apply ids_add_NoDup, ids_of_NoDup.
Qed.

Lemma toggled_record_elem l flag unitId y :
  y ∈ toggled_record l flag unitId
  <-> if decide (y = unitId) then flag = false else y ∈ l.
Proof.
  unfold toggled_record. destruct flag.
  - rewrite ids_delete_elem, ids_of_elem.
    destruct (decide (y = unitId)); [split; [tauto | discriminate] | tauto].
  - rewrite ids_add_elem, ids_of_elem.
    destruct (decide (y = unitId)); tauto.
Qed.

Lemma toggled_record_self l flag unitId :
  bool_decide (unitId ∈ toggled_record l flag unitId) = negb flag.
Proof.
  destruct flag; [apply bool_decide_eq_false | apply bool_decide_eq_true];
    rewrite toggled_record_elem, decide_True by reflexivity;
    [discriminate | reflexivity].
Qed.

Lemma toggleCompleted_stored (parts : list CoursePart) (st : Storage)
  (view : ChapterContent) (c : Chapter) (l : list jsstring) :
  getChapterBySlug parts (cc_slug view) = Some c ->
  stores st l ->
  toggleCompleted parts st view
  = Returns (mkToggled
      (setItem st completedChapters_key
         (JSON_stringify
            (JArray (map JString
               (toggled_record l (cc_isCompleted view) (ch_id c))))))
      (mkView (cc_slug view) (negb (cc_isCompleted view)))
      [js "storage"]).
Proof.
  intros Hc Hst. unfold toggleCompleted. rewrite Hc. cbv zeta.
  rewrite (read_stored st l Hst). cbn [obind]. unfold toggled_record.
  destruct (cc_isCompleted view).
  - now rewrite set_delete_strings.
  - now rewrite set_add_strings.
Qed.

Lemma ChapterContent_effect_stored (parts : list CoursePart) (st : Storage)
  (view : ChapterContent) (c : Chapter) (l : list jsstring) :
  getChapterBySlug parts (cc_slug view) = Some c ->
  stores st l ->
  ChapterContent_effect parts st view
  = Returns (mkView (cc_slug view)
      (if truthy (getItem st completedChapters_key)
       then bool_decide (ch_id c ∈ l)
       else cc_isCompleted view)).
Proof.
  intros Hc Hst. unfold ChapterContent_effect. rewrite Hc. cbv zeta.
  pose proof (read_stored st l Hst) as Hread.
  destruct (truthy (getItem st completedChapters_key)).
  - rewrite Hread. cbn [obind]. rewrite set_has_strings.
    do 2 f_equal. apply bool_decide_ext. apply ids_of_elem.
  - destruct view. reflexivity.
Qed.

Lemma loadCompleted_stored (st : Storage) (sb : SidebarContent)
  (l : list jsstring) :
  stores st l ->
  loadCompleted st sb
  = Returns (if truthy (getItem st completedChapters_key)
             then mkSidebar (map JString (ids_of l))
             else sb).
Proof.
  intros Hst. unfold loadCompleted. cbv zeta.
  pose proof (read_stored st l Hst) as Hread.
  destruct (truthy (getItem st completedChapters_key)).
  - rewrite Hread. reflexivity.
  - reflexivity.
Qed.

Lemma isChapterCompleted_strings (l : list jsstring) (x : jsstring) :
  isChapterCompleted (mkSidebar (map JString l)) x = bool_decide (x ∈ l).
Proof. apply set_has_strings. Qed.

(** ** Loading what is stored *)

(** C1, as stated, fails: with either of the two values of the
    specification under the key, loading throws, in the sidebar and in the
    chapter view alike, and so does a toggle; nothing of it writes to the
    storage. *)
Lemma corrupt_value_throws :
  let bad1 : Storage := {[ completedChapters_key := js "not json" ]} in
  let bad2 : Storage := {[ completedChapters_key := jq "{'not':'an array'}" ]} in
  let view := ChapterContent_mount (js "props") in
  loadCompleted bad1 SidebarContent_mount = Throws SyntaxError
  /\ loadCompleted bad2 SidebarContent_mount = Throws TypeError
  /\ restart bad1 = Throws SyntaxError
  /\ restart bad2 = Throws TypeError
  /\ ChapterContent_effect courseParts bad1 view = Throws SyntaxError
  /\ ChapterContent_effect courseParts bad2 view = Throws TypeError
  /\ toggleCompleted courseParts bad1 view = Throws SyntaxError
  /\ toggleCompleted courseParts bad2 view = Throws TypeError.
Proof. vm_compute. repeat split. Qed.

Lemma JSON_parse_throws (text : jsstring) (e : JSError) :
  JSON_parse text = Throws e -> e = SyntaxError.
Proof.
  unfold JSON_parse.
  destruct (parse_value (fuel_for text) text) as [[v r]| |];
    [destruct (skip_ws r)|..]; congruence.
Qed.

(** C1, amended.  [loadCompleted] leaves the record as it was, without
    throwing, when the key is missing or holds the empty string.  For any
    other value it throws a [SyntaxError] when the value is not valid JSON
    and a [TypeError] when the value parses to a boolean, a number or an
    object; when the value parses to [null], an array or a string, the record
    becomes the set made from it.  In no case does loading write to the
    storage: a value that makes it throw stays where it is. *)
Theorem load_of_stored_value (st : Storage) (sb : SidebarContent) :
  match getItem st completedChapters_key with
  | None | Some [] => loadCompleted st sb = Returns sb
  | Some s =>
    match JSON_parse s with
    | Throws _ => loadCompleted st sb = Throws SyntaxError
    | Returns v =>
      if iterable v
      then exists record,
          new_Set v = Returns record
          /\ loadCompleted st sb = Returns (mkSidebar record)
      else loadCompleted st sb = Throws TypeError
    end
  end
  /\ forall (j : nat) (world : World),
      localStorage (native_storage_event j world) = localStorage world.
Proof.
  split.
  - unfold loadCompleted. cbv zeta.
    destruct (getItem st completedChapters_key) as [[|c s]|];
      [reflexivity| |reflexivity].
    cbn [truthy default from_option id]. unfold parse_set.
    destruct (JSON_parse (c :: s)) as [v|e] eqn:E.
    + destruct v; cbn [iterable obind new_Set];
        first [reflexivity | eexists; split; reflexivity].
    + apply JSON_parse_throws in E as ->. reflexivity.
  - intros j world. unfold native_storage_event.
    destruct (windows world !! j); reflexivity.
Qed.

Lemma load_of_stored_value_witness :
  loadCompleted {[ completedChapters_key := js "not json" ]} SidebarContent_mount
  = Throws SyntaxError.
Proof.
  exact (proj1 (load_of_stored_value
                  {[ completedChapters_key := js "not json" ]}
                  SidebarContent_mount)).
Defined.

(** ** Toggling *)

Lemma storage_other_keys (st : Storage) (v k : jsstring) :
  k <> completedChapters_key ->
  getItem (setItem st completedChapters_key v) k = getItem st k.
Proof. intros Hk. unfold getItem, setItem. now rewrite lookup_insert_ne. Qed.

(** C4, as stated, fails: with ch03 in the stored record and a view of ch03
    whose cached flag is unset, a toggle leaves ch03 in the record.  That is
    the state of the second of two windows that both opened ch03 on an empty
    storage, once the first has toggled. *)
Lemma stale_flag_no_flip :
  let st : Storage := {[ completedChapters_key := jq "['ch03']" ]} in
  let view := mkView (js "understanding-components") false in
  let both := mkWorld ∅ [ mkWindow (Some view) []; mkWindow (Some view) [] ] in
  stores st [js "ch03"]
  /\ (exists t, toggleCompleted courseParts st view = Returns t
                /\ stores (tg_storage t) [js "ch03"])
  /\ ChapterContent_effect courseParts ∅
       (ChapterContent_mount (js "understanding-components")) = Returns view
  /\ localStorage (click courseParts 0 both) = st
  /\ windows (click courseParts 0 both) !! 1%nat = Some (mkWindow (Some view) [])
  /\ localStorage (click courseParts 1 (click courseParts 0 both)) = st.
Proof.
  split; [vm_compute; reflexivity|].
  split; [eexists; split; [vm_compute; reflexivity | vm_compute; reflexivity]|].
  split; [vm_compute; reflexivity|].
  split; [vm_compute; reflexivity|].
  split; vm_compute; reflexivity.
Qed.

(** C4, amended.  When the cached flag of the view is the stored membership
    of its chapter's identifier, [toggleCompleted] flips that membership and
    no other, has written the whole new record under the key, touching no
    other key, has dispatched one [storage] event on its own window and has
    negated the flag.  It returns nothing. *)
Theorem toggle_flips_when_in_sync (parts : list CoursePart) (st : Storage)
  (view : ChapterContent) (c : Chapter) (l : list jsstring) :
  getChapterBySlug parts (cc_slug view) = Some c ->
  stores st l ->
  cc_isCompleted view = bool_decide (ch_id c ∈ l) ->
  exists (t : Toggled) (l' : list jsstring),
    toggleCompleted parts st view = Returns t
    /\ stores (tg_storage t) l'
    /\ getItem (tg_storage t) completedChapters_key
       = Some (JSON_stringify (JArray (map JString l')))
    /\ NoDup l'
    /\ (ch_id c ∈ l' <-> ch_id c ∉ l)
    /\ (forall y, y <> ch_id c -> (y ∈ l' <-> y ∈ l))
    /\ (forall k, k <> completedChapters_key ->
                  getItem (tg_storage t) k = getItem st k)
    /\ tg_dispatched t = [js "storage"]
    /\ tg_view t = mkView (cc_slug view) (negb (cc_isCompleted view)).
Proof.
  intros Hc Hst Hsync.
  eexists. exists (toggled_record l (cc_isCompleted view) (ch_id c)).
  split; [apply (toggleCompleted_stored parts st view c l Hc Hst)|].
  cbn [tg_storage tg_view tg_dispatched].
  split; [apply stores_setItem, toggled_record_NoDup|].
  split; [unfold getItem, setItem; apply lookup_insert_eq|].
  split; [apply toggled_record_NoDup|].
  split; [|split; [|split; [|split; reflexivity]]].
  - rewrite toggled_record_elem, decide_True by reflexivity.
    rewrite Hsync. rewrite bool_decide_eq_false. tauto.
  - intros y Hy. rewrite toggled_record_elem.
    now rewrite decide_False by exact Hy.
  - intros k Hk. now apply storage_other_keys.
Qed.

Lemma toggle_flips_when_in_sync_witness :
  exists (t : Toggled) (l' : list jsstring),
    toggleCompleted courseParts ∅ (ChapterContent_mount (js "props")) = Returns t
    /\ stores (tg_storage t) l'
    /\ getItem (tg_storage t) completedChapters_key
       = Some (JSON_stringify (JArray (map JString l')))
    /\ NoDup l'
    /\ (js "ch06" ∈ l' <-> js "ch06" ∉ [])
    /\ (forall y, y <> js "ch06" -> (y ∈ l' <-> y ∈ []))
    /\ (forall k, k <> completedChapters_key ->
                  getItem (tg_storage t) k = getItem ∅ k)
    /\ tg_dispatched t = [js "storage"]
    /\ tg_view t = mkView (js "props") true.
Proof.
  apply (toggle_flips_when_in_sync courseParts ∅
           (ChapterContent_mount (js "props"))
           (chapter "ch06" 6 "Props - Passing Data Between Components" "props"
              "/course_data/Part2-Core-Concepts/Chapter06-Props/README.md") []).
  - vm_compute. reflexivity.
  - vm_compute. reflexivity.
  - vm_compute. reflexivity.
Defined.

(** C9.  [toggleCompleted] decides by the cached flag of the view: whatever
    record is stored, what it writes is that record without the chapter's
    identifier when the flag is set and with it when the flag is not.  The
    identifier is then in the stored record exactly when the flag was not
    set, so that, when flag and stored membership disagree, the membership
    stays as it was instead of flipping. *)
Theorem toggle_follows_cached_flag (parts : list CoursePart) (st : Storage)
  (view : ChapterContent) (c : Chapter) (l : list jsstring) :
  getChapterBySlug parts (cc_slug view) = Some c ->
  stores st l ->
  exists t : Toggled,
    toggleCompleted parts st view = Returns t
    /\ getItem (tg_storage t) completedChapters_key
       = Some (JSON_stringify (JArray (map JString
           (if cc_isCompleted view
            then ids_delete (ids_of l) (ch_id c)
            else ids_add (ids_of l) (ch_id c)))))
    /\ stores (tg_storage t) (toggled_record l (cc_isCompleted view) (ch_id c))
    /\ (ch_id c ∈ toggled_record l (cc_isCompleted view) (ch_id c)
        <-> cc_isCompleted view = false)
    /\ (forall y, y <> ch_id c ->
          (y ∈ toggled_record l (cc_isCompleted view) (ch_id c) <-> y ∈ l))
    /\ (cc_isCompleted view <> bool_decide (ch_id c ∈ l) ->
        (ch_id c ∈ toggled_record l (cc_isCompleted view) (ch_id c)
         <-> ch_id c ∈ l)).
Proof.
  intros Hc Hst. eexists.
  split; [apply (toggleCompleted_stored parts st view c l Hc Hst)|].
  cbn [tg_storage].
  split; [unfold getItem, setItem; rewrite lookup_insert_eq; reflexivity|].
  split; [apply stores_setItem, toggled_record_NoDup|].
  assert (Hid : ch_id c ∈ toggled_record l (cc_isCompleted view) (ch_id c)
                <-> cc_isCompleted view = false)
    by (now rewrite toggled_record_elem, decide_True by reflexivity).
  split; [exact Hid|]. split.
  - intros y Hy. rewrite toggled_record_elem.
    now rewrite decide_False by exact Hy.
  - intros Hne. rewrite Hid.
    destruct (cc_isCompleted view), (bool_decide_reflect (ch_id c ∈ l));
      try congruence; split; intros; try discriminate; try contradiction;
      auto.
Qed.

Lemma toggle_follows_cached_flag_witness :
  let st : Storage := {[ completedChapters_key := jq "['ch03']" ]} in
  let view := mkView (js "understanding-components") false in
  exists t : Toggled,
    toggleCompleted courseParts st view = Returns t
    /\ getItem (tg_storage t) completedChapters_key = Some (jq "['ch03']").
Proof.
  intros st view.
  destruct (toggle_follows_cached_flag courseParts st view
              (chapter "ch03" 3 "Understanding Components - The Building Blocks"
                 "understanding-components"
                 "/course_data/Part1-Foundations/Chapter03-Understanding-Components/README.md")
              [js "ch03"])
    as (t & Ht & Hstored & _).
  - vm_compute. reflexivity.
  - vm_compute. reflexivity.
  - exists t. split; [exact Ht|]. rewrite Hstored. vm_compute. reflexivity.
Defined.

(** ** Another view of the same storage *)

Lemma on_storage_stored (st : Storage) (w : Window) (l : list jsstring) :
  stores st l ->
  truthy (getItem st completedChapters_key) = true ->
  on_storage st w
  = mkWindow (w_chapter w)
      (map (fun _ => mkSidebar (map JString (ids_of l))) (w_sidebars w)).
Proof.
  intros Hst Htruthy. unfold on_storage. f_equal.
  apply map_ext. intros sb.
  now rewrite (loadCompleted_stored st sb l Hst), Htruthy.
Qed.

Lemma truthy_setItem (st : Storage) (v : list JSValue) :
  truthy (getItem (setItem st completedChapters_key (JSON_stringify (JArray v)))
            completedChapters_key) = true.
Proof. unfold getItem, setItem. rewrite lookup_insert_eq. reflexivity. Qed.

Lemma Forall_map_const {A B} (P : B -> Prop) (b : B) (l : list A) :
  P b -> Forall P (map (fun _ => b) l).
Proof. intros Hb. induction l; simpl; constructor; auto. Qed.

Lemma map_JString_inj (l1 l2 : list jsstring) :
  map JString l1 = map JString l2 -> l1 = l2.
Proof.
  revert l2. induction l1 as [|x l1 IH]; intros [|y l2] H;
    try discriminate; [reflexivity|].
  simpl in H. injection H as -> H. f_equal. now apply IH.
Qed.

(** A storage holds one record. *)
Lemma stores_functional (st : Storage) (l1 l2 : list jsstring) :
  stores st l1 -> stores st l2 -> l1 = l2.
Proof.
  unfold stores. destruct (getItem st completedChapters_key) as [[|? ?]|];
    [congruence | | congruence].
  intros H1 H2. rewrite H1 in H2. injection H2 as H2.
  symmetry. now apply map_JString_inj.
Qed.

Lemma stores_same_value (st1 st2 : Storage) (l : list jsstring) :
  getItem st1 completedChapters_key = getItem st2 completedChapters_key ->
  stores st1 l -> stores st2 l.
Proof. unfold stores. now intros ->. Qed.

(** C6.  Several windows share one storage, which holds a record; the view
    of window [a] shows a chapter it takes to be incomplete.  After a click
    on its completion button, every sidebar of window [a] itself reports the
    chapter complete, and so does every sidebar of any window [b] once the
    storage event has reached it; window [b] keeps its sidebars and, when it
    is another window, its chapter view: nothing was done in it.  When the
    chapter was not in the stored record, the click has changed the stored
    value, which is when a browser sends the event to the other windows. *)
Theorem sidebars_follow_toggle (parts : list CoursePart) (world : World)
  (a : nat) (wa : Window) (view : ChapterContent) (c : Chapter)
  (l : list jsstring) :
  windows world !! a = Some wa ->
  w_chapter wa = Some view ->
  getChapterBySlug parts (cc_slug view) = Some c ->
  cc_isCompleted view = false ->
  stores (localStorage world) l ->
  let after := click parts a world in
  (exists wa',
      windows after !! a = Some wa'
      /\ length (w_sidebars wa') = length (w_sidebars wa)
      /\ Forall (fun sb => isChapterCompleted sb (ch_id c) = true)
                (w_sidebars wa'))
  /\ (forall (b : nat) (wb : Window),
      windows world !! b = Some wb ->
      exists wb',
        windows (native_storage_event b after) !! b = Some wb'
        /\ length (w_sidebars wb') = length (w_sidebars wb)
        /\ Forall (fun sb => isChapterCompleted sb (ch_id c) = true)
                  (w_sidebars wb')
        /\ (b <> a -> w_chapter wb' = w_chapter wb))
  /\ (ch_id c ∉ l ->
      getItem (localStorage after) completedChapters_key
      <> getItem (localStorage world) completedChapters_key).
Proof.
  intros Ha Hview Hc Hflag Hst after.
  set (l' := toggled_record l false (ch_id c)).
  set (st' := setItem (localStorage world) completedChapters_key
                (JSON_stringify (JArray (map JString l')))).
  assert (Hst' : stores st' l') by apply stores_setItem, toggled_record_NoDup.
  assert (Htruthy : truthy (getItem st' completedChapters_key) = true)
    by apply truthy_setItem.
  assert (Hin : ch_id c ∈ ids_of l').
  { apply ids_of_elem. unfold l'. rewrite toggled_record_elem.
    now rewrite decide_True by reflexivity. }
  assert (Hreports : forall (w : Window),
             Forall (fun sb => isChapterCompleted sb (ch_id c) = true)
                    (w_sidebars (on_storage st' w))).
  { intros w. rewrite (on_storage_stored st' w l' Hst' Htruthy). simpl.
    apply Forall_map_const. rewrite isChapterCompleted_strings.
    now apply bool_decide_eq_true. }
  assert (Hsame : forall (w : Window),
             length (w_sidebars (on_storage st' w)) = length (w_sidebars w)
             /\ w_chapter (on_storage st' w) = w_chapter w).
  { intros w. unfold on_storage. simpl. now rewrite length_map. }
  set (wa' := on_storage st' (mkWindow (Some (mkView (cc_slug view) true))
                                       (w_sidebars wa))).
  assert (Hafter : after = mkWorld st' (<[a := wa']> (windows world))).
  { unfold after, click. rewrite Ha, Hview.
    rewrite (toggleCompleted_stored parts _ view c l Hc Hst), Hflag.
    reflexivity. }
  pose proof (lookup_lt_Some _ _ _ Ha) as Hlt.
  split; [|split].
  - exists wa'. rewrite Hafter. simpl.
    split; [now apply list_lookup_insert_eq|].
    split; [|apply Hreports].
    exact (proj1 (Hsame (mkWindow (Some (mkView (cc_slug view) true))
                                  (w_sidebars wa)))).
  - intros b wb Hb. unfold native_storage_event. rewrite Hafter. simpl.
    destruct (decide (b = a)) as [->|Hne].
    + rewrite list_lookup_insert_eq by exact Hlt. simpl.
      exists (on_storage st' wa').
      split; [apply list_lookup_insert_eq; now rewrite length_insert|].
      rewrite Ha in Hb. injection Hb as <-.
      split; [|split; [apply Hreports | congruence]].
      destruct (Hsame wa') as [-> _].
      exact (proj1 (Hsame (mkWindow (Some (mkView (cc_slug view) true))
                                    (w_sidebars wa)))).
    + rewrite list_lookup_insert_ne by congruence. rewrite Hb. simpl.
      exists (on_storage st' wb).
      split; [apply list_lookup_insert_eq; rewrite length_insert;
              apply (lookup_lt_Some _ _ _ Hb)|].
      split; [apply Hsame|]. split; [apply Hreports|].
      intros _. apply Hsame.
  - intros Hnot Hsame_value. rewrite Hafter in Hsame_value.
    cbn [localStorage] in Hsame_value.
    assert (Hl : l' = l)
      by (apply (stores_functional (localStorage world)); [|exact Hst];
          now apply (stores_same_value st')).
    apply Hnot. rewrite <- Hl. now apply ids_of_elem.
Qed.

Lemma sidebars_follow_toggle_witness :
  let view := mkView (js "understanding-components") false in
  let world :=
    mkWorld ∅ [ mkWindow (Some view) [SidebarContent_mount];
                mkWindow None [SidebarContent_mount] ] in
  exists wb',
    windows (native_storage_event 1 (click courseParts 0 world)) !! 1%nat
    = Some wb'
    /\ Forall (fun sb => isChapterCompleted sb (js "ch03") = true)
              (w_sidebars wb')
    /\ length (w_sidebars wb') = 1%nat.
Proof.
  intros view world.
  destruct (sidebars_follow_toggle courseParts world 0
              (mkWindow (Some view) [SidebarContent_mount]) view
              (chapter "ch03" 3 "Understanding Components - The Building Blocks"
                 "understanding-components"
                 "/course_data/Part1-Foundations/Chapter03-Understanding-Components/README.md")
              [])
    as (_ & Hother & _).
  - reflexivity.
  - reflexivity.
  - vm_compute. reflexivity.
  - reflexivity.
  - vm_compute. reflexivity.
  - destruct (Hother 1%nat (mkWindow None [SidebarContent_mount]) eq_refl)
      as (wb' & Hwb & Hlen & Hall & _).
    exists wb'. auto.
Defined.

(** ** A session and a restart *)

Lemma toggle_count_app (unitId : jsstring) (l1 l2 : list jsstring) :
  toggle_count unitId (l1 ++ l2)
  = (toggle_count unitId l1 + toggle_count unitId l2)%nat.
Proof. unfold toggle_count. now rewrite filter_app, length_app. Qed.

Lemma toggle_count_cons (unitId x : jsstring) (l : list jsstring) :
  toggle_count unitId (x :: l)
  = ((if decide (x = unitId) then 1 else 0) + toggle_count unitId l)%nat.
Proof.
  unfold toggle_count. rewrite filter_cons.
  destruct (decide (x = unitId)) as [->|Hne].
  - rewrite decide_True by (rewrite str_eqb_refl; exact I). reflexivity.
  - rewrite decide_False; [reflexivity|].
    apply str_eqb_neq in Hne. now rewrite Hne.
Qed.

(** C5, as stated, fails: two windows open the same chapter on an empty
    storage and the button is clicked once in each, the browser's storage
    event reaching the second window in between.  [toggleCompleted] has
    then been called twice on ch03, an even number of times, and yet after
    a restart the record loaded holds ch03: the second call went by the
    cached flag of its window, which no event refreshes. *)
Lemma two_windows_even_toggles :
  let view := ChapterContent_mount (js "understanding-components") in
  let both := mkWorld ∅ [ mkWindow (Some view) []; mkWindow (Some view) [] ] in
  let trace := [ UserClick 0; StorageEvent 1; UserClick 1 ] in
  getItem (localStorage both) completedChapters_key = None
  /\ ChapterContent_effect courseParts (localStorage both) view = Returns view
  /\ world_toggle_calls courseParts both trace = [ js "ch03"; js "ch03" ]
  /\ Nat.odd (toggle_count (js "ch03")
                (world_toggle_calls courseParts both trace)) = false
  /\ exists sb : SidebarContent,
      restart (localStorage (steps courseParts both trace)) = Returns sb
      /\ sb_completedChapters sb = [ JString (js "ch03") ]
      /\ isChapterCompleted sb (js "ch03") = true.
Proof.
  split; [reflexivity|].
  split; [vm_compute; reflexivity|].
  split; [vm_compute; reflexivity|].
  split; [vm_compute; reflexivity|].
  eexists. split; [vm_compute; reflexivity|].
  split; vm_compute; reflexivity.
Qed.

Section Session.
Variable parts : list CoursePart.

Lemma stores_not_truthy (st : Storage) (l : list jsstring) :
  stores st l -> truthy (getItem st completedChapters_key) = false -> l = [].
Proof.
  unfold stores. destruct (getItem st completedChapters_key) as [[|? ?]|];
    simpl; congruence.
Qed.

Lemma effect_in_sync (st : Storage) (view : ChapterContent)
  (l : list jsstring) :
  stores st l ->
  (truthy (getItem st completedChapters_key) = false ->
   cc_isCompleted view = false) ->
  exists v,
    ChapterContent_effect parts st view = Returns v
    /\ cc_slug v = cc_slug view
    /\ (truthy (getItem st completedChapters_key) = false ->
        cc_isCompleted v = false)
    /\ forall c, getChapterBySlug parts (cc_slug v) = Some c ->
                 cc_isCompleted v = bool_decide (ch_id c ∈ l).
Proof.
  intros Hst Hflag.
  destruct (getChapterBySlug parts (cc_slug view)) as [c|] eqn:Hc.
  - exists (mkView (cc_slug view)
              (if truthy (getItem st completedChapters_key)
               then bool_decide (ch_id c ∈ l)
               else cc_isCompleted view)).
    split; [apply (ChapterContent_effect_stored _ _ _ c l Hc Hst)|].
    simpl. split; [reflexivity|].
    destruct (truthy (getItem st completedChapters_key)) eqn:Htruthy.
    + split; [discriminate|]. intros c' Hc'.
      rewrite Hc in Hc'. now injection Hc' as <-.
    + split; [auto|]. intros c' Hc'. rewrite Hflag by reflexivity.
      rewrite (stores_not_truthy st l Hst Htruthy). reflexivity.
  - exists view. unfold ChapterContent_effect. rewrite Hc.
    split; [reflexivity|]. split; [reflexivity|]. split; [exact Hflag|].
    intros c' Hc'. congruence.
Qed.

(** An action that leaves the storage alone leaves the record alone. *)
Ltac same_record :=
  split; [eassumption | split; [assumption | split; [assumption|]]].

Lemma act_in_sync (b : Browser) (past : list jsstring) (a : Action) :
  in_sync parts b past ->
  exists b',
    act parts b a = Returns b'
    /\ cc_slug <$> b_view b'
       = match a with
         | Open slug | Navigate slug => Some slug
         | Click => cc_slug <$> b_view b
         end
    /\ in_sync parts b'
         (past ++ match a with
                  | Click =>
                    match (cc_slug <$> b_view b) ≫= getChapterBySlug parts with
                    | Some c => [ch_id c]
                    | None => []
                    end
                  | _ => []
                  end).
Proof.
  intros (l & Hst & Hnd & Hodd & Hview).
  destruct a as [slug | slug | ].
  - (* a new view *)
    destruct (effect_in_sync (b_storage b) (ChapterContent_mount slug) l Hst)
      as (v & Hv & Hslug & Hfalse & Hflag); [reflexivity|].
    exists (mkBrowser (b_storage b) (Some v)). simpl. rewrite Hv.
    split; [reflexivity|]. split; [now rewrite Hslug|].
    rewrite app_nil_r. exists l. simpl. same_record.
    intros v' Hv'. injection Hv' as <-. split; assumption.
  - (* the same view, another slug *)
    set (view := match b_view b with
                 | Some v => ChapterContent_rerender slug v
                 | None => ChapterContent_mount slug
                 end).
    destruct (effect_in_sync (b_storage b) view l Hst)
      as (v & Hv & Hslug & Hfalse & Hflag).
    { unfold view. destruct (b_view b) as [v0|]; [|reflexivity].
      simpl. apply (Hview v0 eq_refl). }
    exists (mkBrowser (b_storage b) (Some v)). simpl. fold view. rewrite Hv.
    split; [reflexivity|].
    split; [rewrite Hslug; unfold view; destruct (b_view b); reflexivity|].
    rewrite app_nil_r. exists l. simpl. same_record.
    intros v' Hv'. injection Hv' as <-. split; assumption.
  - (* the button *)
    simpl. destruct (b_view b) as [v|] eqn:Ev; simpl.
    + destruct (Hview v eq_refl) as [Hfalse Hflag].
      destruct (getChapterBySlug parts (cc_slug v)) as [c|] eqn:Hc.
      * rewrite (toggleCompleted_stored parts _ v c l Hc Hst).
        cbn [obind tg_storage tg_view].
        eexists. split; [reflexivity|]. split; [reflexivity|].
        exists (toggled_record l (cc_isCompleted v) (ch_id c)).
        cbn [b_storage b_view].
        split; [apply stores_setItem, toggled_record_NoDup|].
        split; [apply toggled_record_NoDup|].
        assert (Hsync := Hflag c eq_refl).
        split.
        -- intros y. rewrite toggled_record_elem, toggle_count_app.
           rewrite toggle_count_cons. unfold toggle_count at 2. simpl.
           rewrite Nat.add_0_r.
           destruct (decide (y = ch_id c)) as [->|Hne].
           ++ rewrite decide_True by reflexivity.
              rewrite Nat.add_1_r, Nat.odd_succ, <- Nat.negb_odd.
              rewrite Hsync. specialize (Hodd (ch_id c)).
              destruct (bool_decide_reflect (ch_id c ∈ l)) as [Hin | Hnot].
              ** apply Hodd in Hin. rewrite Hin. split; discriminate.
              ** destruct (Nat.odd (toggle_count (ch_id c) past));
                   [exfalso; apply Hnot, Hodd; reflexivity | tauto].
           ++ rewrite decide_False by congruence.
              rewrite Nat.add_0_r. apply Hodd.
        -- intros v' Hv'. injection Hv' as <-.
           cbn [cc_isCompleted cc_slug].
           split; [now rewrite truthy_setItem|].
           intros c' Hc'. rewrite Hc in Hc'. injection Hc' as <-.
           now rewrite toggled_record_self.
      * exists b. unfold toggleCompleted. rewrite Hc. simpl.
        split; [destruct b; simpl in *; now rewrite Ev|].
        split; [now rewrite Ev|].
        rewrite app_nil_r. exists l. same_record.
        intros v' Hv'. rewrite Ev in Hv'. injection Hv' as <-.
        split; [exact Hfalse|]. intros c' Hc'. congruence.
    + exists b. split; [reflexivity|]. split; [now rewrite Ev|].
      rewrite app_nil_r. exists l. same_record.
      intros v' Hv'. rewrite Ev in Hv'. discriminate.
Qed.

Lemma run_in_sync (actions : list Action) :
  forall (b : Browser) (past : list jsstring),
    in_sync parts b past ->
    exists b',
      run parts b actions = Returns b'
      /\ in_sync parts b'
           (past ++ toggle_calls parts (cc_slug <$> b_view b) actions).
Proof.
  induction actions as [|a actions IH]; intros b past Hb.
  - exists b. simpl. now rewrite app_nil_r.
  - destruct (act_in_sync b past a Hb) as (b1 & Hact & Hslug & Hb1).
    destruct (IH b1 _ Hb1) as (b' & Hrun & Hb').
    exists b'. simpl. rewrite Hact. simpl. split; [exact Hrun|].
    rewrite Hslug in Hb'. rewrite <- app_assoc in Hb'.
    destruct a as [slug | slug | ]; simpl in *; try exact Hb'.
    destruct (cc_slug <$> b_view b) as [s|]; simpl in *;
      [destruct (getChapterBySlug parts s)|]; exact Hb'.
Qed.

(** C5, amended.  In one window, on a storage that has nothing under the
    key yet, whatever chapters are opened and however often the button is
    clicked,
    no call throws, and after a restart the sidebar loads a record of
    identifiers in which an identifier is complete exactly when
    [toggleCompleted] was called on it an odd number of times. *)
Theorem odd_toggles_survive_restart (st0 : Storage) (actions : list Action) :
  getItem st0 completedChapters_key = None ->
  exists (b : Browser) (sb : SidebarContent) (l : list jsstring),
    run parts (mkBrowser st0 None) actions = Returns b
    /\ restart (b_storage b) = Returns sb
    /\ sb_completedChapters sb = map JString l
    /\ NoDup l
    /\ (forall unitId : jsstring,
          unitId ∈ l
          <-> Nat.odd (toggle_count unitId (toggle_calls parts None actions))
              = true)
    /\ forall unitId : jsstring,
        isChapterCompleted sb unitId
        = Nat.odd (toggle_count unitId (toggle_calls parts None actions)).
Proof.
  intros Hnone.
  assert (Hstart : in_sync parts (mkBrowser st0 None) []).
  { exists []. unfold stores. simpl. rewrite Hnone.
    repeat split; try constructor.
    - intros Hin. now apply elem_of_nil in Hin.
    - discriminate.
    - discriminate.
    - discriminate. }
  destruct (run_in_sync actions _ _ Hstart)
    as (b & Hrun & l & Hst & Hnd & Hodd & _).
  simpl in Hodd.
  exists b.
  exists (if truthy (getItem (b_storage b) completedChapters_key)
          then mkSidebar (map JString (ids_of l))
          else SidebarContent_mount).
  exists l. split; [exact Hrun|].
  split; [apply (loadCompleted_stored _ _ l Hst)|].
  assert (Hrecord :
            sb_completedChapters
              (if truthy (getItem (b_storage b) completedChapters_key)
               then mkSidebar (map JString (ids_of l))
               else SidebarContent_mount) = map JString l).
  { destruct (truthy (getItem (b_storage b) completedChapters_key)) eqn:E.
    - simpl. now rewrite ids_of_NoDup_id.
    - now rewrite (stores_not_truthy _ l Hst E). }
  split; [exact Hrecord|]. split; [exact Hnd|]. split; [exact Hodd|].
  intros unitId. unfold isChapterCompleted. rewrite Hrecord.
  rewrite set_has_strings. specialize (Hodd unitId).
  destruct (bool_decide_reflect (unitId ∈ l)) as [Hin | Hnot].
  - symmetry. now apply Hodd.
  - destruct (Nat.odd _); [exfalso; apply Hnot, Hodd; reflexivity
                          | reflexivity].
Qed.
End Session.

Lemma odd_toggles_survive_restart_witness :
  let actions :=
    [ Open (js "props"); Click; Navigate (js "state"); Click; Click;
      Open (js "does-not-exist"); Click; Open (js "testing"); Click ] in
  exists (b : Browser) (sb : SidebarContent),
    run courseParts (mkBrowser ∅ None) actions = Returns b
    /\ restart (b_storage b) = Returns sb
    /\ isChapterCompleted sb (js "ch06") = true
    /\ isChapterCompleted sb (js "ch07") = false
    /\ isChapterCompleted sb (js "ch16") = true.
Proof.
  intros actions.
  destruct (odd_toggles_survive_restart courseParts ∅ actions)
    as (b & sb & l & Hrun & Hsb & _ & _ & _ & Hodd).
  - reflexivity.
  - exists b, sb. split; [exact Hrun|]. split; [exact Hsb|].
    rewrite !Hodd. vm_compute. auto.
Defined.

(** * More of the catalog and of the pages *)

(** ** Lookups and neighbours *)

Lemma array_get_elem {A} (l : list A) (i : Z) (x : A) :
  array_get l i = Some x -> x ∈ l.
Proof.
  unfold array_get. destruct (i <? 0); [discriminate|].
  apply list_elem_of_lookup_2.
Qed.

Lemma getNextChapter_elem (parts : list CoursePart) (slug : jsstring)
  (d : Chapter) :
  getNextChapter parts slug = Some d -> d ∈ getAllChapters parts.
Proof.
  unfold getNextChapter. cbv zeta.
  destruct (_ && _); [apply array_get_elem | discriminate].
Qed.

Lemma getPreviousChapter_elem (parts : list CoursePart) (slug : jsstring)
  (d : Chapter) :
  getPreviousChapter parts slug = Some d -> d ∈ getAllChapters parts.
Proof.
  unfold getPreviousChapter. cbv zeta.
  destruct (0 <? _); [apply array_get_elem | discriminate].
Qed.

Section Neighbours.
Variable parts : list CoursePart.
Hypothesis slugs_unique : NoDup (map ch_slug (getAllChapters parts)).

Lemma getNextChapter_at (i : nat) (c : Chapter) :
  getAllChapters parts !! i = Some c ->
  getNextChapter parts (ch_slug c) = getAllChapters parts !! S i.
Proof.
  intros Hi. unfold getNextChapter. cbv zeta.
  rewrite (slug_position parts slugs_unique i c Hi).
  pose proof (lookup_lt_Some _ _ _ Hi) as Hlt. unfold array_length.
  destruct (Z.leb_spec 0 (Z.of_nat i)); [|lia]. cbn [andb].
  destruct (Z.ltb_spec (Z.of_nat i)
              (Z.of_nat (length (getAllChapters parts)) - 1)).
  - replace (Z.of_nat i + 1) with (Z.of_nat (S i)) by lia.
    apply array_get_nat.
  - symmetry. apply lookup_ge_None. lia.
Qed.

Lemma getPreviousChapter_at (i : nat) (c : Chapter) :
  getAllChapters parts !! i = Some c ->
  getPreviousChapter parts (ch_slug c)
  = match i with
    | O => None
    | S j => getAllChapters parts !! j
    end.
Proof.
  intros Hi. unfold getPreviousChapter. cbv zeta.
  rewrite (slug_position parts slugs_unique i c Hi).
  destruct i as [|j]; [reflexivity|].
  destruct (Z.ltb_spec 0 (Z.of_nat (S j))); [|lia].
  replace (Z.of_nat (S j) - 1) with (Z.of_nat j) by lia.
  apply array_get_nat.
Qed.

Lemma chapter_of_slug (c d : Chapter) :
  c ∈ getAllChapters parts -> d ∈ getAllChapters parts ->
  ch_slug c = ch_slug d -> c = d.
Proof.
  intros Hc Hd Heq.
  apply list_elem_of_lookup in Hc as [i Hi].
  apply list_elem_of_lookup in Hd as [j Hj].
  assert (i = j).
  { eapply NoDup_lookup; [exact slugs_unique | |].
    - rewrite list_lookup_fmap, Hi. reflexivity.
    - rewrite list_lookup_fmap, Hj. simpl. now rewrite Heq. }
  subst. congruence.
Qed.

Lemma getChapterBySlug_found (slug : jsstring) (d : Chapter) :
  getChapterBySlug parts slug = Some d ->
  d ∈ getAllChapters parts /\ ch_slug d = slug.
Proof.
  intros Hd. unfold getChapterBySlug in Hd.
  apply find_some in Hd as [Hin Heq].
  split; [now apply list_elem_of_In | now apply str_eqb_eq].
Qed.

Lemma getChapterBySlug_own_slug (c : Chapter) :
  c ∈ getAllChapters parts -> getChapterBySlug parts (ch_slug c) = Some c.
Proof.
  intros Hc.
  destruct (getChapterBySlug parts (ch_slug c)) as [d|] eqn:Hd.
  - destruct (getChapterBySlug_found _ _ Hd) as [Hin Heq].
    f_equal. now apply chapter_of_slug.
  - unfold getChapterBySlug in Hd.
    pose proof (find_none _ _ Hd c (proj1 (list_elem_of_In _ _) Hc)) as Hno.
    cbv beta in Hno. now rewrite str_eqb_refl in Hno.
Qed.

(** X2.  With unique slugs, Previous undoes Next and Next undoes Previous:
    when [getNextChapter] of a slug is the chapter [d], the slug is that of
    a chapter [c] of the catalog and [getPreviousChapter] of the slug of [d]
    is [c]; and the same with the two exchanged. *)
Theorem next_previous_inverse (slug : jsstring) (d : Chapter) :
  (getNextChapter parts slug = Some d ->
   exists c, getChapterBySlug parts slug = Some c
             /\ getPreviousChapter parts (ch_slug d) = Some c)
  /\ (getPreviousChapter parts slug = Some d ->
      exists c, getChapterBySlug parts slug = Some c
                /\ getNextChapter parts (ch_slug d) = Some c).
Proof.
  destruct (decide (slug ∈ map ch_slug (getAllChapters parts))) as [Hin | Hnot].
  - apply list_elem_of_fmap in Hin as (c & -> & Hc).
    pose proof (getChapterBySlug_own_slug c Hc) as Hlookup.
    apply list_elem_of_lookup in Hc as [i Hi].
    split; intros H; exists c; (split; [exact Hlookup|]).
    + rewrite (getNextChapter_at i c Hi) in H.
      now rewrite (getPreviousChapter_at (S i) d H).
    + rewrite (getPreviousChapter_at i c Hi) in H.
      destruct i as [|j]; [discriminate|].
      now rewrite (getNextChapter_at j d H).
  - split; intros H; exfalso.
    + unfold getNextChapter in H. cbv zeta in H.
      now rewrite (unknown_slug_position parts slug Hnot) in H.
    + unfold getPreviousChapter in H. cbv zeta in H.
      now rewrite (unknown_slug_position parts slug Hnot) in H.
Qed.
End Neighbours.

(** X1.  In a catalog with unique slugs, looking a chapter of the catalog
    up by its own slug gives that chapter back; and in any catalog, with or
    without repeated slugs, whatever a lookup finds is a chapter of the
    catalog with the slug asked for. *)
Theorem getChapterBySlug_gives_back (parts : list CoursePart) :
  (NoDup (map ch_slug (getAllChapters parts)) ->
   forall c : Chapter,
     c ∈ getAllChapters parts ->
     getChapterBySlug parts (ch_slug c) = Some c)
  /\ (forall (slug : jsstring) (d : Chapter),
        getChapterBySlug parts slug = Some d ->
        d ∈ getAllChapters parts /\ ch_slug d = slug).
Proof.
  split.
  - intros Hnd c Hc. now apply getChapterBySlug_own_slug.
  - apply getChapterBySlug_found.
Qed.

Lemma getChapterBySlug_gives_back_witness :
  let ch09 :=
    chapter "ch09" 9 "useEffect - Side Effects & Lifecycle" "use-effect"
      "/course_data/Part2-Core-Concepts/Chapter09-UseEffect/README.md" in
  let twice :=
    [ mkPart (js "part1") 1 (js "One") (js "first")
        [ chapter "a1" 1 "First" "same" "/a1.md";
          chapter "a2" 2 "Second" "same" "/a2.md" ]
        completed ] in
  getChapterBySlug courseParts (js "use-effect") = Some ch09
  /\ (forall d : Chapter,
        getChapterBySlug twice (js "same") = Some d ->
        d ∈ getAllChapters twice /\ ch_slug d = js "same")
  /\ option_map ch_id (getChapterBySlug twice (js "same")) = Some (js "a1").
Proof.
  intros ch09 twice. split; [|split].
  - apply (proj1 (getChapterBySlug_gives_back courseParts)
             ltac:(apply (bool_decide_unpack _); vm_compute; exact I) ch09).
    apply (bool_decide_unpack _). vm_compute. exact I.
  - apply (proj2 (getChapterBySlug_gives_back twice)).
  - vm_compute. reflexivity.
Defined.

Lemma next_previous_inverse_witness :
  exists c,
    getChapterBySlug courseParts (js "handling-user-interaction") = Some c
    /\ getPreviousChapter courseParts (js "props") = Some c.
Proof.
  apply (proj1 (next_previous_inverse courseParts
                  ltac:(apply (bool_decide_unpack _); vm_compute; exact I)
                  (js "handling-user-interaction")
                  (chapter "ch06" 6 "Props - Passing Data Between Components"
                     "props"
                     "/course_data/Part2-Core-Concepts/Chapter06-Props/README.md"))).
  vm_compute. reflexivity.
Defined.

(** X3.  In a catalog with unique part numbers, [getPartByNumber] of the
    number of a part of the catalog is that part; and in any catalog, with
    or without repeated numbers, it finds nothing exactly when no part has
    the number. *)
Theorem getPartByNumber_gives_back (parts : list CoursePart) :
  (NoDup (map part_number parts) ->
   forall p : CoursePart,
     p ∈ parts -> getPartByNumber parts (part_number p) = Some p)
  /\ (forall n : Z,
        getPartByNumber parts n = None <-> n ∉ map part_number parts).
Proof.
  split.
  - intros Hnd p Hp. unfold getPartByNumber.
    destruct (find _ parts) as [q|] eqn:Hq.
    + apply find_some in Hq as [Hin Heq]. apply Z.eqb_eq in Heq.
      apply list_elem_of_In in Hin.
      apply list_elem_of_lookup in Hin as [i Hi].
      apply list_elem_of_lookup in Hp as [j Hj].
      assert (i = j).
      { eapply NoDup_lookup; [exact Hnd | |].
        - rewrite list_lookup_fmap, Hi. reflexivity.
        - rewrite list_lookup_fmap, Hj. simpl. now rewrite Heq. }
      subst. congruence.
    + pose proof (find_none _ _ Hq p (proj1 (list_elem_of_In _ _) Hp)) as Hno.
      cbv beta in Hno. now rewrite Z.eqb_refl in Hno.
  - intros n. unfold getPartByNumber. split.
    + intros Hnone Hin. apply list_elem_of_fmap in Hin as (q & -> & Hq).
      pose proof (find_none _ _ Hnone q (proj1 (list_elem_of_In _ _) Hq)) as Hno.
      cbv beta in Hno. now rewrite Z.eqb_refl in Hno.
    + intros Hnot. destruct (find _ parts) as [q|] eqn:Hq; [|reflexivity].
      apply find_some in Hq as [Hin Heq]. apply Z.eqb_eq in Heq.
      exfalso. apply Hnot. apply list_elem_of_fmap. exists q.
      split; [now symmetry | now apply list_elem_of_In].
Qed.

Lemma getPartByNumber_gives_back_witness :
  let twice :=
    [ mkPart (js "part1") 1 (js "One") (js "first") [] completed;
      mkPart (js "part1") 1 (js "Uno") (js "again") [] coming_soon ] in
  (exists p : CoursePart,
      courseParts !! 1%nat = Some p
      /\ getPartByNumber courseParts (part_number p) = Some p)
  /\ (getPartByNumber courseParts 4 = None
      <-> 4 ∉ map part_number courseParts)
  /\ getPartByNumber twice 2 = None.
Proof.
  intros twice. split; [|split].
  - eexists. split; [vm_compute; reflexivity|].
    refine (proj1 (getPartByNumber_gives_back courseParts)
              ltac:(apply (bool_decide_unpack _); vm_compute; exact I) _ _).
    apply list_elem_of_lookup_2 with 1%nat. reflexivity.
  - apply (proj2 (getPartByNumber_gives_back courseParts)).
  - apply (proj2 (getPartByNumber_gives_back twice)).
    apply (bool_decide_unpack _). vm_compute. exact I.
Defined.

(** ** Links and generated routes *)

From Stdlib Require DecimalZ.

Lemma js_inj (a b : string) : js a = js b -> a = b.
Proof.
  unfold js. intros H.
  rewrite <- (string_of_list_ascii_of_string a),
          <- (string_of_list_ascii_of_string b).
  f_equal. revert H.
  generalize (list_ascii_of_string a) (list_ascii_of_string b).
  induction l as [|x l IH]; intros [|y l'] H; try discriminate;
    [reflexivity|].
  simpl in H. injection H as Hxy H. f_equal; [|now apply IH].
  rewrite <- (ascii_N_embedding x), <- (ascii_N_embedding y). now f_equal.
Qed.

Lemma to_int_not_nil (n : Z) :
  Z.to_int n <> Decimal.Pos Decimal.Nil /\ Z.to_int n <> Decimal.Neg Decimal.Nil.
Proof.
  split; intros H; pose proof (DecimalZ.of_to n) as Hn; rewrite H in Hn;
    simpl in Hn; subst n; discriminate.
Qed.

Lemma Number_toString_inj (a b : Z) :
  Number_toString a = Number_toString b -> a = b.
Proof.
  unfold Number_toString. intros H. apply js_inj in H.
  apply DecimalZ.to_int_inj.
  destruct (to_int_not_nil a) as [Ha1 Ha2], (to_int_not_nil b) as [Hb1 Hb2].
  pose proof (NilZero.isi (Z.to_int a) Ha1 Ha2) as Ea.
  pose proof (NilZero.isi (Z.to_int b) Hb1 Hb2) as Eb.
  rewrite H in Ea. rewrite Ea in Eb. now injection Eb.
Qed.

Lemma nav_params_generated (parts : list CoursePart) (c : Chapter) :
  c ∈ getAllChapters parts -> nav_params c ∈ generateStaticParams parts.
Proof.
  intros Hc. unfold generateStaticParams.
  apply list_elem_of_In, in_map_iff. exists c.
  split; [reflexivity | now apply list_elem_of_In].
Qed.

(** X4.  The Previous and Next links under a chapter never leave the
    generated routes: in any catalog, the route of a link to a neighbour that
    [getNextChapter] or [getPreviousChapter] found is one of
    [generateStaticParams]. *)
Theorem nav_links_generated (parts : list CoursePart) (slug : jsstring)
  (d : Chapter) :
  getNextChapter parts slug = Some d \/ getPreviousChapter parts slug = Some d ->
  nav_params d ∈ generateStaticParams parts
  /\ (getNextChapter parts slug = Some d ->
      snd (ChapterContent_nav parts slug) = Some (route_path (nav_params d)))
  /\ (getPreviousChapter parts slug = Some d ->
      fst (ChapterContent_nav parts slug) = Some (route_path (nav_params d))).
Proof.
  intros H. split; [|split].
  - apply nav_params_generated.
    destruct H as [H | H];
      [now apply getNextChapter_elem in H
      | now apply getPreviousChapter_elem in H].
  - intros Hn. unfold ChapterContent_nav. simpl. now rewrite Hn.
  - intros Hp. unfold ChapterContent_nav. simpl. now rewrite Hp.
Qed.

Lemma nav_links_generated_witness :
  mkParams (js "part1") (js "props") ∈ generateStaticParams courseParts
  /\ snd (ChapterContent_nav courseParts (js "handling-user-interaction"))
     = Some (js "/course/part1/props").
Proof.
  destruct (nav_links_generated courseParts (js "handling-user-interaction")
              (chapter "ch06" 6 "Props - Passing Data Between Components"
                 "props"
                 "/course_data/Part2-Core-Concepts/Chapter06-Props/README.md"))
    as (Hgen & Hnext & _).
  - left. vm_compute. reflexivity.
  - split; [exact Hgen|]. rewrite Hnext by (vm_compute; reflexivity).
    vm_compute. reflexivity.
Defined.

Lemma units_of_elem (parts : list CoursePart) (p : CoursePart) (c : Chapter) :
  (p, c) ∈ units_of parts -> p ∈ parts /\ c ∈ part_chapters p.
Proof.
  unfold units_of. intros H.
  apply list_elem_of_In, in_flat_map in H as (q & Hq & H).
  apply in_map_iff in H as (c' & Heq & Hc'). injection Heq as -> ->.
  split; now apply list_elem_of_In.
Qed.

(** X5.  With unique slugs, the link that the sidebar, the course page and
    the home page give a chapter, under the number of the part that lists
    it, is a generated route exactly when that number is the one the
    thresholds on the chapter's number give. *)
Theorem listed_link_generated_iff (parts : list CoursePart) (p : CoursePart)
  (c : Chapter) :
  NoDup (map ch_slug (getAllChapters parts)) ->
  (p, c) ∈ units_of parts ->
  linked_params p c ∈ generateStaticParams parts
  <-> part_number p = partNumber_of c.
Proof.
  intros Hnd Hunit. apply units_of_elem in Hunit as [Hp Hc].
  assert (Hin : c ∈ getAllChapters parts)
    by (apply getAllChapters_elem; eauto).
  split.
  - intros Hgen. unfold generateStaticParams in Hgen.
    apply list_elem_of_In, in_map_iff in Hgen as (c' & Heq & Hc').
    apply list_elem_of_In in Hc'.
    unfold linked_params in Heq. injection Heq as Hpart Hslug.
    assert (c' = c) by (now apply (chapter_of_slug parts Hnd)).
    subst c'. symmetry. now apply Number_toString_inj.
  - intros Heq. unfold linked_params. rewrite Heq.
    now apply nav_params_generated.
Qed.

Lemma listed_link_generated_iff_witness :
  exists p : CoursePart,
    courseParts !! 1%nat = Some p
    /\ ~ linked_params p
           (chapter "ch06" 6 "Props - Passing Data Between Components" "props"
              "/course_data/Part2-Core-Concepts/Chapter06-Props/README.md")
         ∈ generateStaticParams courseParts.
Proof.
  eexists. split; [vm_compute; reflexivity|].
  match goal with
  | |- ~ linked_params ?p ?c ∈ _ =>
    rewrite (listed_link_generated_iff courseParts p c)
  end.
  - vm_compute. discriminate.
  - apply (bool_decide_unpack _). vm_compute. exact I.
  - apply list_elem_of_lookup_2 with 5%nat. vm_compute. reflexivity.
Defined.

(** X6.  Every generated route renders its chapter: in any catalog, the
    first version of the page shows, for a generated route, a chapter with
    the slug of the route, and so does the second when the file of every
    chapter can be read; neither answers not-found. *)
Theorem generated_routes_render (parts : list CoursePart)
  (readFile : jsstring -> option jsstring) (r : RouteParams) :
  r ∈ generateStaticParams parts ->
  (exists c, screen_of parts (RouteClient.ChapterPage r) = ChapterScreen c
             /\ c ∈ getAllChapters parts /\ ch_slug c = rp_slug r)
  /\ ((forall c, c ∈ getAllChapters parts -> is_Some (readFile (ch_path c))) ->
      exists c content,
        getChapterBySlug parts (rp_slug r) = Some c
        /\ readFile (ch_path c) = Some content
        /\ RouteStatic.ChapterPage parts readFile r
           = ChapterElement (rp_slug r) (Some content)).
Proof.
  intros Hr. unfold generateStaticParams in Hr.
  apply list_elem_of_In, in_map_iff in Hr as (c0 & <- & Hc0).
  cbn [rp_slug].
  destruct (getChapterBySlug parts (ch_slug c0)) as [c|] eqn:Hc.
  - pose proof Hc as Hfound. unfold getChapterBySlug in Hfound.
    apply find_some in Hfound as [Hin Heq].
    apply list_elem_of_In in Hin. apply str_eqb_eq in Heq.
    split.
    + exists c. unfold RouteClient.ChapterPage, screen_of,
        ChapterContent_render. cbn [rp_slug]. now rewrite Hc.
    + intros Hfiles. destruct (Hfiles c Hin) as [content Hcontent].
      exists c, content. split; [reflexivity|]. split; [exact Hcontent|].
      unfold RouteStatic.ChapterPage. cbn [rp_slug].
      now rewrite Hc, Hcontent.
  - exfalso. unfold getChapterBySlug in Hc.
    pose proof (find_none _ _ Hc c0 Hc0) as Hno. cbv beta in Hno.
    now rewrite str_eqb_refl in Hno.
Qed.

Lemma generated_routes_render_witness :
  exists c, screen_of courseParts
              (RouteClient.ChapterPage (mkParams (js "part1") (js "props")))
            = ChapterScreen c
            /\ ch_slug c = js "props".
Proof.
  destruct (generated_routes_render courseParts (fun _ => None)
              (mkParams (js "part1") (js "props")))
    as [(c & Hscreen & _ & Hslug) _].
  - apply (bool_decide_unpack _). vm_compute. exact I.
  - exists c. auto.
Defined.

(** ** More on toggling *)

(** X7.  One toggle puts the view back in step with the storage: whatever
    the cached flag was, stale or not, after [toggleCompleted] the flag is
    the stored membership of the chapter's identifier. *)
Theorem toggle_resyncs_view (parts : list CoursePart) (st : Storage)
  (view : ChapterContent) (c : Chapter) (l : list jsstring) :
  getChapterBySlug parts (cc_slug view) = Some c ->
  stores st l ->
  exists (t : Toggled) (l' : list jsstring),
    toggleCompleted parts st view = Returns t
    /\ stores (tg_storage t) l'
    /\ cc_isCompleted (tg_view t) = bool_decide (ch_id c ∈ l')
    /\ cc_slug (tg_view t) = cc_slug view.
Proof.
  intros Hc Hst.
  eexists. exists (toggled_record l (cc_isCompleted view) (ch_id c)).
  split; [apply (toggleCompleted_stored parts st view c l Hc Hst)|].
  cbn [tg_storage tg_view cc_isCompleted cc_slug].
  split; [apply stores_setItem, toggled_record_NoDup|].
  split; [now rewrite toggled_record_self | reflexivity].
Qed.

Lemma toggle_resyncs_view_witness :
  let st : Storage := {[ completedChapters_key := jq "['ch03']" ]} in
  let view := mkView (js "understanding-components") false in
  exists (t : Toggled) (l' : list jsstring),
    toggleCompleted courseParts st view = Returns t
    /\ stores (tg_storage t) l'
    /\ cc_isCompleted (tg_view t) = bool_decide (js "ch03" ∈ l').
Proof.
  intros st view.
  destruct (toggle_resyncs_view courseParts st view
              (chapter "ch03" 3 "Understanding Components - The Building Blocks"
                 "understanding-components"
                 "/course_data/Part1-Foundations/Chapter03-Understanding-Components/README.md")
              [js "ch03"])
    as (t & l' & Ht & Hst & Hflag & _).
  - vm_compute. reflexivity.
  - vm_compute. reflexivity.
  - exists t, l'. auto.
Defined.

(** X8.  Two toggles in a row in one view, with no other write in between,
    leave the view as it was and make the storage agree with what the view
    showed at first: the chapter's identifier is stored exactly when the
    flag was set, and every other identifier is stored as before. *)
Theorem double_toggle (parts : list CoursePart) (st : Storage)
  (view : ChapterContent) (c : Chapter) (l : list jsstring) :
  getChapterBySlug parts (cc_slug view) = Some c ->
  stores st l ->
  exists (t1 t2 : Toggled) (l2 : list jsstring),
    toggleCompleted parts st view = Returns t1
    /\ toggleCompleted parts (tg_storage t1) (tg_view t1) = Returns t2
    /\ tg_view t2 = view
    /\ stores (tg_storage t2) l2
    /\ (ch_id c ∈ l2 <-> cc_isCompleted view = true)
    /\ forall y, y <> ch_id c -> (y ∈ l2 <-> y ∈ l).
Proof.
  intros Hc Hst.
  set (l1 := toggled_record l (cc_isCompleted view) (ch_id c)).
  set (l2 := toggled_record l1 (negb (cc_isCompleted view)) (ch_id c)).
  eexists. eexists. exists l2.
  split; [apply (toggleCompleted_stored parts st view c l Hc Hst)|].
  cbn [tg_storage tg_view]. fold l1.
  assert (Hst1 : stores (setItem st completedChapters_key
                           (JSON_stringify (JArray (map JString l1)))) l1)
    by apply stores_setItem, toggled_record_NoDup.
  split; [apply (toggleCompleted_stored parts _
                   (mkView (cc_slug view) (negb (cc_isCompleted view)))
                   c l1 Hc Hst1)|].
  cbn [tg_storage tg_view cc_slug cc_isCompleted]. fold l2.
  split; [rewrite negb_involutive; now destruct view|].
  split; [apply stores_setItem, toggled_record_NoDup|].
  split.
  - unfold l2. rewrite toggled_record_elem, decide_True by reflexivity.
    destruct (cc_isCompleted view); simpl; split; congruence.
  - intros y Hy. unfold l2.
    rewrite toggled_record_elem, decide_False by exact Hy. unfold l1.
    now rewrite toggled_record_elem, decide_False by exact Hy.
Qed.

Lemma double_toggle_witness :
  let view := ChapterContent_mount (js "props") in
  exists (t1 t2 : Toggled) (l2 : list jsstring),
    toggleCompleted courseParts ∅ view = Returns t1
    /\ toggleCompleted courseParts (tg_storage t1) (tg_view t1) = Returns t2
    /\ tg_view t2 = view
    /\ stores (tg_storage t2) l2
    /\ (js "ch06" ∈ l2 <-> false = true).
Proof.
  intros view.
  destruct (double_toggle courseParts ∅ view
              (chapter "ch06" 6 "Props - Passing Data Between Components"
                 "props"
                 "/course_data/Part2-Core-Concepts/Chapter06-Props/README.md")
              [])
    as (t1 & t2 & l2 & H1 & H2 & Hview & Hst & Hid & _).
  - vm_compute. reflexivity.
  - vm_compute. reflexivity.
  - exists t1, t2, l2. auto.
Defined.

(** ** More on windows *)

Lemma window_eta (w : Window) (view : ChapterContent) :
  w_chapter w = Some view -> mkWindow (Some view) (w_sidebars w) = w.
Proof. destruct w. simpl. now intros ->. Qed.

Lemma click_found (parts : list CoursePart) (world : World) (a : nat)
  (wa : Window) (view : ChapterContent) (c : Chapter) (l : list jsstring) :
  windows world !! a = Some wa ->
  w_chapter wa = Some view ->
  getChapterBySlug parts (cc_slug view) = Some c ->
  stores (localStorage world) l ->
  let st' := setItem (localStorage world) completedChapters_key
               (JSON_stringify
                  (JArray (map JString
                     (toggled_record l (cc_isCompleted view) (ch_id c))))) in
  click parts a world
  = mkWorld st'
      (<[a := on_storage st'
                (mkWindow (Some (mkView (cc_slug view)
                                        (negb (cc_isCompleted view))))
                          (w_sidebars wa))]> (windows world)).
Proof.
  intros Ha Hview Hc Hst st'. unfold click. rewrite Ha, Hview.
  rewrite (toggleCompleted_stored parts _ view c l Hc Hst). reflexivity.
Qed.

Lemma click_storage (parts : list CoursePart) (world : World) (i : nat)
  (l : list jsstring) :
  stores (localStorage world) l ->
  localStorage (click parts i world) = localStorage world
  \/ exists w view c,
      windows world !! i = Some w /\ w_chapter w = Some view
      /\ getChapterBySlug parts (cc_slug view) = Some c
      /\ localStorage (click parts i world)
         = setItem (localStorage world) completedChapters_key
             (JSON_stringify
                (JArray (map JString
                   (toggled_record l (cc_isCompleted view) (ch_id c))))).
Proof.
  intros Hst.
  destruct (windows world !! i) as [w|] eqn:Hw;
    [|left; unfold click; now rewrite Hw].
  destruct (w_chapter w) as [view|] eqn:Hview;
    [|left; unfold click; now rewrite Hw, Hview].
  destruct (getChapterBySlug parts (cc_slug view)) as [c|] eqn:Hc.
  - right. exists w, view, c. repeat split; auto.
    now rewrite (click_found parts world i w view c l Hw Hview Hc Hst).
  - left. unfold click, toggleCompleted. now rewrite Hw, Hview, Hc.
Qed.

Lemma getChapterBySlug_id (parts : list CoursePart) (slug : jsstring)
  (c : Chapter) :
  getChapterBySlug parts slug = Some c -> ch_id c ∈ catalog_ids parts.
Proof.
  unfold getChapterBySlug, catalog_ids. intros H.
  apply find_some in H as [Hin _].
  apply list_elem_of_fmap. exists c. split; [reflexivity|].
  now apply list_elem_of_In.
Qed.

Lemma step_readable (parts : list CoursePart) (world : World) (s : Step)
  (l : list jsstring) :
  stores (localStorage world) l ->
  exists l', stores (localStorage (step parts world s)) l'
             /\ forall y, y ∈ l' -> y ∈ l \/ y ∈ catalog_ids parts.
Proof.
  intros Hst. destruct s as [i | j]; simpl.
  - destruct (click_storage parts world i l Hst)
      as [-> | (w & view & c & _ & _ & Hc & ->)].
    + exists l. auto.
    + eexists. split; [apply stores_setItem, toggled_record_NoDup|].
      intros y Hy. apply toggled_record_elem in Hy.
      destruct (decide (y = ch_id c)) as [->|]; [right|now left].
      now apply (getChapterBySlug_id parts (cc_slug view)).
  - exists l. split; [|auto]. unfold native_storage_event.
    now destruct (windows world !! j).
Qed.

(** X9.  The application never makes its storage unreadable: when the value
    under the key is a record of strings (or missing, or empty), it still is
    one after any clicks and storage events in any windows, and every
    identifier in it was there at the start or is an identifier of the
    catalog. *)
Theorem storage_stays_readable (parts : list CoursePart) (l : list jsstring)
  (trace : list Step) (world : World) :
  stores (localStorage world) l ->
  exists l',
    stores (localStorage (steps parts world trace)) l'
    /\ (forall y, y ∈ l' -> y ∈ l \/ y ∈ catalog_ids parts)
    /\ exists sb, restart (localStorage (steps parts world trace)) = Returns sb.
Proof.
  revert world l. induction trace as [|s trace IH]; intros world l Hst.
  - exists l. split; [exact Hst|]. split; [auto|].
    eexists. apply (loadCompleted_stored _ _ l Hst).
  - destruct (step_readable parts world s l Hst) as (l1 & Hst1 & Hl1).
    destruct (IH _ l1 Hst1) as (l' & Hst' & Hl' & Hrestart).
    exists l'. split; [exact Hst'|]. split; [|exact Hrestart].
    intros y Hy. destruct (Hl' y Hy) as [H | H]; [apply Hl1, H | now right].
Qed.

Lemma storage_stays_readable_witness :
  let view := ChapterContent_mount (js "props") in
  let world := mkWorld ∅ [ mkWindow (Some view) [SidebarContent_mount];
                           mkWindow (Some view) [] ] in
  let trace := [UserClick 0; StorageEvent 1; UserClick 1; UserClick 0] in
  exists l',
    stores (localStorage (steps courseParts world trace)) l'
    /\ forall y, y ∈ l' -> y ∈ [] \/ y ∈ catalog_ids courseParts.
Proof.
  intros view world trace.
  destruct (storage_stays_readable courseParts [] trace world)
    as (l' & Hst & Hl & _).
  - vm_compute. reflexivity.
  - exists l'. auto.
Defined.

(** X10.  Toggles in two windows on two chapters do not undo each other:
    each reads the storage anew, so after a click in window [a] and then one
    in window [b] the stored record has the first chapter's identifier
    exactly when the flag of [a] was unset, the second's exactly when the
    flag of [b] was unset, and every other identifier as before. *)
Theorem toggles_in_two_windows (parts : list CoursePart) (world : World)
  (a b : nat) (wa wb : Window) (va vb : ChapterContent) (ca cb : Chapter)
  (l : list jsstring) :
  a <> b ->
  windows world !! a = Some wa -> w_chapter wa = Some va ->
  windows world !! b = Some wb -> w_chapter wb = Some vb ->
  getChapterBySlug parts (cc_slug va) = Some ca ->
  getChapterBySlug parts (cc_slug vb) = Some cb ->
  ch_id ca <> ch_id cb ->
  stores (localStorage world) l ->
  exists l2,
    stores (localStorage (click parts b (click parts a world))) l2
    /\ (ch_id ca ∈ l2 <-> cc_isCompleted va = false)
    /\ (ch_id cb ∈ l2 <-> cc_isCompleted vb = false)
    /\ forall y, y <> ch_id ca -> y <> ch_id cb -> (y ∈ l2 <-> y ∈ l).
Proof.
  intros Hab Ha Hva Hb Hvb Hca Hcb Hids Hst.
  set (l1 := toggled_record l (cc_isCompleted va) (ch_id ca)).
  set (l2 := toggled_record l1 (cc_isCompleted vb) (ch_id cb)).
  pose proof (click_found parts world a wa va ca l Ha Hva Hca Hst) as H1.
  cbv zeta in H1. fold l1 in H1.
  assert (Hst1 : stores (localStorage (click parts a world)) l1)
    by (rewrite H1; apply stores_setItem, toggled_record_NoDup).
  assert (Hb1 : windows (click parts a world) !! b = Some wb)
    by (rewrite H1; cbn [windows]; now rewrite list_lookup_insert_ne).
  pose proof (click_found parts _ b wb vb cb l1 Hb1 Hvb Hcb Hst1) as H2.
  cbv zeta in H2. fold l2 in H2.
  exists l2. rewrite H2. cbn [localStorage].
  split; [apply stores_setItem, toggled_record_NoDup|].
  split; [|split].
  - unfold l2. rewrite toggled_record_elem, decide_False by exact Hids.
    unfold l1. now rewrite toggled_record_elem, decide_True by reflexivity.
  - unfold l2. now rewrite toggled_record_elem, decide_True by reflexivity.
  - intros y Hya Hyb. unfold l2.
    rewrite toggled_record_elem, decide_False by exact Hyb. unfold l1.
    now rewrite toggled_record_elem, decide_False by exact Hya.
Qed.

Lemma toggles_in_two_windows_witness :
  let world :=
    mkWorld ∅ [ mkWindow (Some (ChapterContent_mount (js "props"))) [];
                mkWindow (Some (ChapterContent_mount (js "state"))) [] ] in
  exists l2,
    stores (localStorage (click courseParts 1 (click courseParts 0 world))) l2
    /\ js "ch06" ∈ l2 /\ js "ch07" ∈ l2.
Proof.
  intros world.
  destruct (toggles_in_two_windows courseParts world 0 1
              (mkWindow (Some (ChapterContent_mount (js "props"))) [])
              (mkWindow (Some (ChapterContent_mount (js "state"))) [])
              (ChapterContent_mount (js "props"))
              (ChapterContent_mount (js "state"))
              (chapter "ch06" 6 "Props - Passing Data Between Components"
                 "props"
                 "/course_data/Part2-Core-Concepts/Chapter06-Props/README.md")
              (chapter "ch07" 7 "State - Making Components Dynamic" "state"
                 "/course_data/Part2-Core-Concepts/Chapter07-State/README.md")
              [])
    as (l2 & Hst & Ha & Hb & _).
  - lia.
  - reflexivity.
  - reflexivity.
  - reflexivity.
  - reflexivity.
  - vm_compute. reflexivity.
  - vm_compute. reflexivity.
  - vm_compute. discriminate.
  - vm_compute. reflexivity.
  - exists l2. split; [exact Hst|]. split; [now apply Ha | now apply Hb].
Defined.

Lemma on_storage_throws (st : Storage) (w : Window) (s : jsstring)
  (e : JSError) :
  getItem st completedChapters_key = Some s -> s <> [] ->
  parse_set s = Throws e ->
  on_storage st w = w.
Proof.
  intros Hs Hne Hthrow. unfold on_storage.
  assert (Hload : forall sb, loadCompleted st sb = Throws e).
  { intros sb. unfold loadCompleted. cbv zeta. rewrite Hs.
    destruct s; [contradiction|]. cbn [truthy default from_option id].
    now rewrite Hthrow. }
  replace (map _ (w_sidebars w)) with (w_sidebars w); [now destruct w|].
  symmetry. erewrite map_ext; [apply map_id|].
  intros sb. now rewrite Hload.
Qed.

Lemma step_stuck (parts : list CoursePart) (world : World) (s : jsstring)
  (e : JSError) (x : Step) :
  getItem (localStorage world) completedChapters_key = Some s -> s <> [] ->
  parse_set s = Throws e ->
  step parts world x = world.
Proof.
  intros Hs Hne Hthrow. destruct x as [i | j]; simpl.
  - unfold click.
    destruct (windows world !! i) as [w|] eqn:Hw; [|reflexivity].
    destruct (w_chapter w) as [view|] eqn:Hview; [|reflexivity].
    unfold toggleCompleted.
    destruct (getChapterBySlug parts (cc_slug view)) as [c|].
    + cbv zeta. rewrite Hs. destruct s; [contradiction|].
      cbn [truthy default from_option id]. now rewrite Hthrow.
    + cbn [tg_storage tg_view tg_dispatched dispatch fold_left].
      rewrite (window_eta w view Hview), list_insert_id by exact Hw.
      now destruct world.
  - unfold native_storage_event.
    destruct (windows world !! j) as [w|] eqn:Hw; [|reflexivity].
    rewrite (on_storage_throws _ w s e Hs Hne Hthrow).
    rewrite list_insert_id by exact Hw. now destruct world.
Qed.

(** X11.  A stored value that cannot be read is never repaired: when the
    value under the key is not empty and [new Set(JSON.parse(...))] throws
    on it, every click and every storage event in every window leaves the
    whole world as it was, the value included, and the sidebar's load and
    the effect of a view of a known chapter go on throwing. *)
Theorem corrupt_storage_stays (parts : list CoursePart) (world : World)
  (s : jsstring) (e : JSError) (trace : list Step) :
  getItem (localStorage world) completedChapters_key = Some s ->
  s <> [] ->
  parse_set s = Throws e ->
  steps parts world trace = world
  /\ restart (localStorage (steps parts world trace)) = Throws e
  /\ forall view c,
      getChapterBySlug parts (cc_slug view) = Some c ->
      ChapterContent_effect parts (localStorage (steps parts world trace)) view
      = Throws e.
Proof.
  intros Hs Hne Hthrow.
  assert (Hsteps : steps parts world trace = world).
  { unfold steps. induction trace as [|x trace IH]; [reflexivity|].
    simpl. now rewrite (step_stuck parts world s e x Hs Hne Hthrow). }
  rewrite Hsteps. split; [reflexivity|]. split.
  - unfold restart, loadCompleted. cbv zeta. rewrite Hs.
    destruct s; [contradiction|]. cbn [truthy default from_option id].
    now rewrite Hthrow.
  - intros view c Hc. unfold ChapterContent_effect. rewrite Hc. cbv zeta.
    rewrite Hs. destruct s; [contradiction|].
    cbn [truthy default from_option id]. now rewrite Hthrow.
Qed.

Lemma corrupt_storage_stays_witness :
  let world :=
    mkWorld {[ completedChapters_key := js "not json" ]}
            [ mkWindow (Some (ChapterContent_mount (js "props")))
                       [SidebarContent_mount] ] in
  steps courseParts world [UserClick 0; StorageEvent 0; UserClick 0] = world.
Proof.
  intros world.
  apply (corrupt_storage_stays courseParts world (js "not json") SyntaxError).
  - vm_compute. reflexivity.
  - discriminate.
  - vm_compute. reflexivity.
Defined.

(** ** The sidebar: marks, open part and counts *)

Lemma starts_with_spec (s p : jsstring) :
  starts_with s p = true <-> exists post, s = p ++ post.
Proof.
  revert s. induction p as [|a p IH]; intros [|b s]; simpl.
  - split; [intros _; now exists [] | reflexivity].
  - split; [intros _; now exists (b :: s) | reflexivity].
  - split; [discriminate | intros [post H]; discriminate].
  - rewrite andb_true_iff, N.eqb_eq, IH. split.
    + intros [-> [post ->]]. now exists post.
    + intros [post H]. injection H as -> ->.
      split; [reflexivity | now exists post].
Qed.

Lemma includes_spec (s sub : jsstring) :
  includes s sub = true <-> exists pre post, s = pre ++ sub ++ post.
Proof.
  induction s as [|c s IH]; cbn [includes].
  - rewrite orb_false_r, starts_with_spec. split.
    + intros [post H]. now exists [], post.
    + intros (pre & post & H). symmetry in H.
      apply app_eq_nil in H as [-> H]. now exists post.
  - rewrite orb_true_iff, IH. split.
    + intros [H | (pre & post & ->)].
      * apply starts_with_spec in H as [post H]. now exists [], post.
      * now exists (c :: pre), post.
    + intros (pre & post & H). destruct pre as [|c' pre].
      * left. apply starts_with_spec. now exists post.
      * right. injection H as -> ->. now exists pre, post.
Qed.

(** X12.  The sidebar marks a chapter as the active one exactly when its
    slug occurs somewhere in the path, and never without a path.  So the
    chapter of the page is always marked, and with it every chapter whose
    slug is a piece of that slug: in the catalog, [state] on the page of
    [advanced-state-management]. *)
Theorem chapter_marked_active :
  (forall path slug : jsstring,
      isChapterActive (Some path) slug = true
      <-> exists pre post, path = pre ++ slug ++ post)
  /\ (forall slug, isChapterActive None slug = false)
  /\ (forall r : RouteParams,
        isChapterActive (Some (route_path r)) (rp_slug r) = true)
  /\ (forall (r : RouteParams) (slug pre post : jsstring),
        rp_slug r = pre ++ slug ++ post ->
        isChapterActive (Some (route_path r)) slug = true)
  /\ isChapterActive
       (Some (route_path (mkParams (js "part3") (js "advanced-state-management"))))
       (js "state") = true.
Proof.
  split; [intros path slug; apply includes_spec|].
  split; [reflexivity|].
  assert (Hpiece : forall (r : RouteParams) (slug pre post : jsstring),
             rp_slug r = pre ++ slug ++ post ->
             isChapterActive (Some (route_path r)) slug = true).
  { intros r slug pre post H. apply includes_spec.
    exists (js "/course/" ++ rp_part r ++ js "/" ++ pre), post.
    unfold route_path. rewrite H, <- !app_assoc. reflexivity. }
  split; [|split; [exact Hpiece|]].
  - intros r. apply (Hpiece r (rp_slug r) [] []).
    now rewrite app_nil_r.
  - vm_compute. reflexivity.
Qed.

Lemma match_course_part_eq (s : jsstring) :
  match_course_part s
  = match
      match strip_prefix (js "/course/part") s with
      | Some rest =>
        match span_digits rest with
        | ([], _) => None
        | (d, _) => Some d
        end
      | None => None
      end
    with
    | Some d => Some d
    | None =>
      match s with
      | [] => None
      | _ :: s' => match_course_part s'
      end
    end.
Proof. destruct s; reflexivity. Qed.

Lemma strip_prefix_app (p s : jsstring) : strip_prefix p (p ++ s) = Some s.
Proof.
  induction p as [|a p IH]; simpl; [reflexivity|].
  now rewrite N.eqb_refl.
Qed.

Lemma strip_prefix_starts_with (p s r : jsstring) :
  strip_prefix p s = Some r -> starts_with s p = true.
Proof.
  revert s. induction p as [|a p IH]; intros [|b s] H; simpl in *;
    try reflexivity; try discriminate.
  destruct (a =? b)%N; [|discriminate]. simpl. now apply IH.
Qed.

Lemma span_digits_app (d rest : jsstring) :
  forallb is_digit d = true ->
  match rest with
  | c :: _ => is_digit c = false
  | [] => True
  end ->
  span_digits (d ++ rest) = (d, rest).
Proof.
  intros Hd Hrest. induction d as [|c d IH]; simpl in *.
  - destruct rest as [|c rest]; [reflexivity|]. simpl. now rewrite Hrest.
  - apply andb_true_iff in Hd as [Hc Hd]. rewrite Hc, (IH Hd). reflexivity.
Qed.

Lemma auto_open_matched (d rest : jsstring) (openParts : list jsstring) :
  d <> [] ->
  forallb is_digit d = true ->
  match rest with
  | c :: _ => is_digit c = false
  | [] => True
  end ->
  auto_open (Some (js "/course/part" ++ d ++ rest)) openParts = [js "part" ++ d].
Proof.
  intros Hne Hd Hrest.
  unfold auto_open. rewrite match_course_part_eq, strip_prefix_app.
  rewrite (span_digits_app d rest Hd Hrest).
  destruct d; [contradiction | reflexivity].
Qed.

Lemma auto_open_unmatched (path : jsstring) (openParts : list jsstring) :
  includes path (js "/course/part") = false ->
  auto_open (Some path) openParts = openParts.
Proof.
  intros Hno. unfold auto_open.
  replace (match_course_part path) with (@None jsstring); [reflexivity|].
  symmetry. induction path as [|c path IH];
    rewrite match_course_part_eq;
    (destruct (strip_prefix (js "/course/part") _) as [r|] eqn:Hs;
     [apply strip_prefix_starts_with in Hs; cbn [includes] in Hno;
      rewrite Hs in Hno; discriminate|]).
  - reflexivity.
  - apply IH. cbn [includes] in Hno.
    now apply orb_false_iff in Hno as [_ Hno].
Qed.

(** X13.  The sidebar's effect calls [loadCompleted] first, and what it
    opens depends on that call.  Where the call returns, as it does on a
    storage that holds the JSON of an array of strings, the empty string or
    nothing under the key, the effect goes on: it registers the listener,
    and on a path that begins with [/course/part], then digits, then
    something that is not a digit, it opens the one accordion item named
    [part] and those digits, whatever was open; on a path in which
    [/course/part] does not occur, and without a path, it leaves the open
    items alone.  Where the stored text is not empty and [JSON.parse] or
    [new Set] throws on it, the effect throws that exception whatever the
    path: nothing is opened and no listener is registered. *)
Theorem auto_open_part (st : Storage) (s : SidebarState) (d rest : jsstring) :
  d <> [] ->
  forallb is_digit d = true ->
  match rest with
  | c :: _ => is_digit c = false
  | [] => True
  end ->
  (forall sb : SidebarContent,
      loadCompleted st (ss_content s) = Returns sb ->
      SidebarContent_effect st (Some (js "/course/part" ++ d ++ rest)) s
      = Returns (mkSidebarState sb [js "part" ++ d] true)
      /\ (forall path : jsstring,
            includes path (js "/course/part") = false ->
            SidebarContent_effect st (Some path) s
            = Returns (mkSidebarState sb (ss_openParts s) true))
      /\ SidebarContent_effect st None s
         = Returns (mkSidebarState sb (ss_openParts s) true))
  /\ (forall l : list jsstring,
        stores st l ->
        loadCompleted st (ss_content s)
        = Returns (if truthy (getItem st completedChapters_key)
                   then mkSidebar (map JString (ids_of l))
                   else ss_content s))
  /\ (forall (v : jsstring) (e : JSError),
        getItem st completedChapters_key = Some v ->
        v <> [] ->
        parse_set v = Throws e ->
        forall pathname : option jsstring,
          SidebarContent_effect st pathname s = Throws e).
Proof.
  intros Hne Hd Hrest. split; [|split].
  - intros sb Hload. unfold SidebarContent_effect. rewrite Hload.
    cbn [obind]. split; [|split].
    + now rewrite auto_open_matched.
    + intros path Hno. now rewrite auto_open_unmatched.
    + reflexivity.
  - intros l Hst. now apply loadCompleted_stored.
  - intros v e Hv Hnonempty Hthrow pathname.
    unfold SidebarContent_effect, loadCompleted. cbv zeta. rewrite Hv.
    destruct v; [contradiction|]. cbn [truthy default from_option id].
    rewrite Hthrow. reflexivity.
Qed.

Lemma auto_open_part_witness :
  let s := mkSidebarState SidebarContent_mount [js "part1"; js "part3"] false in
  let broken : Storage := {[ completedChapters_key := jq "{'ch03':true}" ]} in
  SidebarContent_effect ∅ (Some (js "/course/part2/props")) s
  = Returns (mkSidebarState SidebarContent_mount [js "part2"] true)
  /\ SidebarContent_effect broken (Some (js "/course/part2/props")) s
     = Throws TypeError.
Proof.
  intros s broken. split.
  - apply (proj1 (auto_open_part ∅ s (js "2") (js "/props")
                    ltac:(discriminate) eq_refl eq_refl)).
    reflexivity.
  - apply (proj2 (proj2 (auto_open_part broken s (js "2") (js "/props")
                           ltac:(discriminate) eq_refl eq_refl))
             (jq "{'ch03':true}")).
    + reflexivity.
    + discriminate.
    + vm_compute. reflexivity.
Defined.

Lemma filter_length_iff {A} (P Q : A -> Prop) `{forall x, Decision (P x)}
  `{forall x, Decision (Q x)} (l : list A) :
  (forall x, x ∈ l -> (P x <-> Q x)) ->
  length (filter P l) = length (filter Q l).
Proof.
  induction l as [|a l IH]; intros Hpq; [reflexivity|].
  rewrite !filter_cons.
  assert (Ha : P a <-> Q a) by (apply Hpq; left).
  assert (Hl : forall x, x ∈ l -> (P x <-> Q x))
    by (intros x Hx; apply Hpq; now right).
  destruct (decide (P a)), (decide (Q a)); simpl; rewrite (IH Hl); tauto.
Qed.

Lemma filter_length_map {A B} (f : A -> B) (Q : B -> Prop)
  `{forall y, Decision (Q y)} (l : list A) :
  length (filter (fun x => Q (f x)) l) = length (filter Q (map f l)).
Proof.
  induction l as [|a l IH]; [reflexivity|].
  cbn [map]. rewrite !filter_cons.
  destruct (decide (Q (f a))); simpl; now rewrite IH.
Qed.

Lemma filter_length_all {A} (P : A -> Prop) `{forall x, Decision (P x)}
  (l : list A) :
  length (filter P l) = length l <-> Forall P l.
Proof.
  induction l as [|a l IH].
  - split; [constructor | reflexivity].
  - rewrite filter_cons. pose proof (length_filter P l) as Hle.
    destruct (decide (P a)); simpl.
    + rewrite Forall_cons. split.
      * intros Hlen. split; [assumption|]. apply IH. lia.
      * intros [_ Hall]. apply IH in Hall. lia.
    + split; [lia|]. intros Hall. apply Forall_cons in Hall as [? _].
      contradiction.
Qed.

(** Two lists without repetition have as many elements of each in the
    other. *)
Lemma common_elements (a b : list jsstring) :
  NoDup a -> NoDup b ->
  length (filter (fun x => x ∈ b) a) = length (filter (fun y => y ∈ a) b).
Proof.
  intros Ha Hb. apply Permutation_length. apply NoDup_Permutation.
  - now apply NoDup_filter.
  - now apply NoDup_filter.
  - intros x. rewrite !list_elem_of_filter. tauto.
Qed.

Lemma completedCount_ids (sb : SidebarContent) (l : list jsstring)
  (part : CoursePart) :
  sb_completedChapters sb = map JString l ->
  completedCount sb part
  = length (filter (fun y => y ∈ l) (map ch_id (part_chapters part))).
Proof.
  intros Hsb. unfold completedCount.
  rewrite <- (filter_length_map ch_id (fun y => y ∈ l)).
  apply filter_length_iff. intros ch _.
  unfold isChapterCompleted. rewrite Hsb, set_has_strings.
  split; [apply bool_decide_unpack | apply bool_decide_pack].
Qed.

Lemma badges_sum (parts : list CoursePart) (sb : SidebarContent)
  (l : list jsstring) :
  sb_completedChapters sb = map JString l ->
  NoDup l ->
  NoDup (catalog_ids parts) ->
  sum_list_with (completedCount sb) parts
  = length (filter (fun y => y ∈ catalog_ids parts) l).
Proof.
  intros Hsb Hl Hids. rewrite <- (common_elements _ _ Hids Hl).
  unfold catalog_ids, getAllChapters. clear Hids.
  induction parts as [|p parts IH]; [reflexivity|].
  cbn [sum_list_with flat_map]. rewrite map_app, filter_app, length_app.
  now rewrite IH, (completedCount_ids sb l p Hsb).
Qed.

(** X14.  When no two chapters share an identifier, the badges of the parts
    add up to the number of stored identifiers that are identifiers of the
    catalog.  The header shows the size of the stored record instead: it is
    never less than the sum of the badges, and equal exactly when every
    stored identifier belongs to the catalog. *)
Theorem badges_and_header (parts : list CoursePart) (sb : SidebarContent)
  (l : list jsstring) :
  sb_completedChapters sb = map JString l ->
  NoDup l ->
  NoDup (catalog_ids parts) ->
  sum_list_with (completedCount sb) parts
  = length (filter (fun y => y ∈ catalog_ids parts) l)
  /\ (sum_list_with (completedCount sb) parts <= completed_size sb)%nat
  /\ (sum_list_with (completedCount sb) parts = completed_size sb
      <-> forall y, y ∈ l -> y ∈ catalog_ids parts).
Proof.
  intros Hsb Hl Hids.
  rewrite (badges_sum parts sb l Hsb Hl Hids).
  unfold completed_size. rewrite Hsb, length_map.
  split; [reflexivity|]. split; [apply length_filter|].
  rewrite filter_length_all, Forall_forall. reflexivity.
Qed.

Lemma badges_and_header_witness :
  let sb := mkSidebar [JString (js "ch06"); JString (js "gone")] in
  sum_list_with (completedCount sb) courseParts = 1%nat
  /\ completed_size sb = 2%nat.
Proof.
  intros sb.
  destruct (badges_and_header courseParts sb [js "ch06"; js "gone"])
    as (Hsum & _ & _).
  - reflexivity.
  - apply (bool_decide_unpack _). vm_compute. exact I.
  - apply (bool_decide_unpack _). vm_compute. exact I.
  - split; [|reflexivity]. rewrite Hsum. vm_compute. reflexivity.
Defined.

Lemma toggle_calls_ids (parts : list CoursePart) (actions : list Action) :
  forall current y,
    y ∈ toggle_calls parts current actions -> y ∈ catalog_ids parts.
Proof.
  induction actions as [|a actions IH]; intros current y Hy; simpl in Hy.
  - now apply elem_of_nil in Hy.
  - destruct a as [slug | slug | ]; [now apply IH in Hy..|].
    destruct (current ≫= getChapterBySlug parts) as [c|] eqn:Hc;
      [|now apply IH in Hy].
    apply elem_of_cons in Hy as [-> | Hy]; [|now apply IH in Hy].
    destruct current as [slug|]; [|discriminate]. simpl in Hc.
    now apply (getChapterBySlug_id parts slug).
Qed.

Lemma toggle_count_elem (y : jsstring) (calls : list jsstring) :
  Nat.odd (toggle_count y calls) = true -> y ∈ calls.
Proof.
  induction calls as [|x calls IH]; [discriminate|].
  rewrite toggle_count_cons.
  destruct (decide (x = y)) as [->|Hne]; [left|].
  simpl. intros H. right. now apply IH.
Qed.

(** X15.  In one window, from a storage with nothing under the key and a
    catalog without repeated identifiers, after any opening of chapters and
    any clicks the sidebar loads a record whose size, the numerator of the
    header, is the sum of the badges of the parts and is at most the number
    of chapters. *)
Theorem header_counts_after_session (parts : list CoursePart) (st0 : Storage)
  (actions : list Action) :
  NoDup (catalog_ids parts) ->
  getItem st0 completedChapters_key = None ->
  exists (b : Browser) (sb : SidebarContent),
    run parts (mkBrowser st0 None) actions = Returns b
    /\ restart (b_storage b) = Returns sb
    /\ completed_size sb = sum_list_with (completedCount sb) parts
    /\ (completed_size sb <= length (getAllChapters parts))%nat.
Proof.
  intros Hids Hnone.
  assert (Hstart : in_sync parts (mkBrowser st0 None) []).
  { exists []. unfold stores. simpl. rewrite Hnone.
    split; [reflexivity|]. split; [constructor|]. split.
    - intros y. split; [intros Hin; now apply elem_of_nil in Hin|discriminate].
    - discriminate. }
  destruct (run_in_sync parts actions _ _ Hstart)
    as (b & Hrun & l & Hst & Hnd & Hodd & _).
  simpl in Hodd.
  assert (Hcat : forall y, y ∈ l -> y ∈ catalog_ids parts).
  { intros y Hy. apply Hodd, toggle_count_elem in Hy.
    now apply (toggle_calls_ids parts actions None). }
  set (sb := if truthy (getItem (b_storage b) completedChapters_key)
             then mkSidebar (map JString (ids_of l))
             else SidebarContent_mount).
  assert (Hsb : sb_completedChapters sb = map JString l).
  { unfold sb.
    destruct (truthy (getItem (b_storage b) completedChapters_key)) eqn:E.
    - simpl. now rewrite ids_of_NoDup_id.
    - now rewrite (stores_not_truthy _ l Hst E). }
  exists b, sb. split; [exact Hrun|].
  split; [apply (loadCompleted_stored _ _ l Hst)|].
  split.
  - rewrite (badges_sum parts sb l Hsb Hnd Hids).
    unfold completed_size. rewrite Hsb, length_map. symmetry.
    apply filter_length_all, Forall_forall. exact Hcat.
  - unfold completed_size. rewrite Hsb, length_map.
    replace (length (getAllChapters parts)) with (length (catalog_ids parts))
      by (unfold catalog_ids; apply length_map).
    apply submseteq_length, NoDup_submseteq; assumption.
Qed.

Lemma header_counts_after_session_witness :
  exists (b : Browser) (sb : SidebarContent),
    run courseParts (mkBrowser ∅ None)
        [Open (js "props"); Click; Open (js "state"); Click] = Returns b
    /\ restart (b_storage b) = Returns sb
    /\ completed_size sb = sum_list_with (completedCount sb) courseParts
    /\ (completed_size sb <= length (getAllChapters courseParts))%nat.
Proof.
  apply (header_counts_after_session courseParts ∅).
  - apply (bool_decide_unpack _). vm_compute. exact I.
  - reflexivity.
Defined.

(** ** The home page and the typewriter *)

(** X16.  The card of a part accounts for every chapter: the chapters it
    shows and the number it announces as more add up to the chapters of the
    part, and it announces none exactly when the part has at most three.
    Its button links the first chapter under the part's own number, and
    rendering it throws exactly when the part has no chapter. *)
Theorem part_card_accounts (part : CoursePart) :
  Z.of_nat (length (part_preview part)) + default 0 (more_chapters part)
  = array_length (part_chapters part)
  /\ (more_chapters part = None <-> (length (part_chapters part) <= 3)%nat)
  /\ (start_part_link part = Throws TypeError <-> part_chapters part = [])
  /\ forall r, start_part_link part = Returns r ->
               exists c, part_chapters part !! 0%nat = Some c
                         /\ r = linked_params part c.
Proof.
  unfold part_preview, more_chapters, start_part_link, array_length.
  rewrite length_take.
  destruct (Z.ltb_spec 3 (Z.of_nat (length (part_chapters part)))).
  - split; [cbn [default from_option id]; lia|].
    split; [split; [discriminate | lia]|].
    destruct (part_chapters part) as [|c rest]; [cbn [length] in *; lia|].
    split; [split; discriminate|]. intros r Hr. injection Hr as <-. eauto.
  - split; [cbn [default from_option id]; lia|].
    split; [split; [lia | reflexivity]|].
    destruct (part_chapters part) as [|c rest].
    + split; [split; reflexivity | discriminate].
    + split; [split; discriminate|]. intros r Hr. injection Hr as <-. eauto.
Qed.

(** X17.  The typewriter types its text and stops: once started, after [k]
    of its timeouts it shows the first [k] code units of the text, all of
    it from [k = text.length] on, with the cursor drawn as long as
    something is missing; before it is started, timeouts change nothing. *)
Theorem typewriter_after_ticks (text : jsstring) (k : nat) :
  Nat.iter k (Typewriter_tick text) (Typewriter_start Typewriter_mount)
  = mkTypewriter (take k text) (Nat.min k (length text)) true
  /\ Typewriter_cursor text
       (Nat.iter k (Typewriter_tick text) (Typewriter_start Typewriter_mount))
     = (k <? length text)%nat
  /\ Nat.iter k (Typewriter_tick text) Typewriter_mount = Typewriter_mount.
Proof.
  assert (Hrun : Nat.iter k (Typewriter_tick text)
                   (Typewriter_start Typewriter_mount)
                 = mkTypewriter (take k text) (Nat.min k (length text)) true).
  { induction k as [|k IH]; [reflexivity|].
    rewrite Nat.iter_succ, IH. unfold Typewriter_tick.
    cbn [tw_started tw_currentIndex tw_displayedText andb].
    destruct (Nat.ltb_spec (Nat.min k (length text)) (length text)) as [Hlt | Hge].
    - assert (Hk : (k < length text)%nat) by lia.
      rewrite Nat.min_l by lia.
      destruct (lookup_lt_is_Some_2 text k Hk) as [x Hx].
      rewrite Hx. cbn [option_list].
      rewrite (take_S_r _ _ _ Hx). f_equal. lia.
    - assert (Hk : (length text <= k)%nat) by lia.
      rewrite !take_ge by lia. f_equal. lia. }
  split; [exact Hrun|]. split.
  - rewrite Hrun. unfold Typewriter_cursor. cbn [tw_currentIndex].
    destruct (Nat.ltb_spec k (length text)),
      (Nat.ltb_spec (Nat.min k (length text)) (length text));
      try reflexivity; exfalso; lia.
  - clear Hrun. induction k as [|k IH]; [reflexivity|].
    now rewrite Nat.iter_succ, IH.
Qed.

(** ** Opening a chapter *)

(** X18.  Opening a chapter shows its stored state, and a click then flips
    it: the effect of a newly mounted view of a known chapter sets the flag
    to the stored membership of the chapter's identifier (unset when the key
    is missing), and [toggleCompleted] on that view stores the identifier
    exactly when it was not stored before. *)
Theorem open_then_click_flips (parts : list CoursePart) (st : Storage)
  (slug : jsstring) (c : Chapter) (l : list jsstring) :
  getChapterBySlug parts slug = Some c ->
  stores st l ->
  let view := mkView slug (bool_decide (ch_id c ∈ l)) in
  ChapterContent_effect parts st (ChapterContent_mount slug) = Returns view
  /\ exists (t : Toggled) (l' : list jsstring),
      toggleCompleted parts st view = Returns t
      /\ stores (tg_storage t) l'
      /\ (ch_id c ∈ l' <-> ch_id c ∉ l)
      /\ forall y, y <> ch_id c -> (y ∈ l' <-> y ∈ l).
Proof.
  intros Hc Hst view. split.
  - rewrite (ChapterContent_effect_stored parts st
               (ChapterContent_mount slug) c l Hc Hst).
    cbn [ChapterContent_mount cc_slug cc_isCompleted]. unfold view.
    destruct (truthy (getItem st completedChapters_key)) eqn:E;
      [reflexivity|].
    now rewrite (stores_not_truthy st l Hst E).
  - eexists. exists (toggled_record l (bool_decide (ch_id c ∈ l)) (ch_id c)).
    split; [apply (toggleCompleted_stored parts st view c l Hc Hst)|].
    cbn [tg_storage].
    split; [apply stores_setItem, toggled_record_NoDup|]. split.
    + rewrite toggled_record_elem, decide_True by reflexivity.
      rewrite bool_decide_eq_false. tauto.
    + intros y Hy. now rewrite toggled_record_elem, decide_False by exact Hy.
Qed.

Lemma open_then_click_flips_witness :
  let st : Storage := {[ completedChapters_key := jq "['ch03','ch06']" ]} in
  ChapterContent_effect courseParts st (ChapterContent_mount (js "props"))
  = Returns (mkView (js "props") true).
Proof.
  intros st.
  destruct (open_then_click_flips courseParts st (js "props")
              (chapter "ch06" 6 "Props - Passing Data Between Components"
                 "props"
                 "/course_data/Part2-Core-Concepts/Chapter06-Props/README.md")
              [js "ch03"; js "ch06"])
    as [Heffect _].
  - vm_compute. reflexivity.
  - vm_compute. reflexivity.
  - exact Heffect.
Defined.

Lemma getChapterBySlug_None (parts : list CoursePart) (slug : jsstring) :
  getChapterBySlug parts slug = None ->
  slug ∉ map ch_slug (getAllChapters parts).
Proof.
  unfold getChapterBySlug. intros Hnone Hin.
  apply list_elem_of_fmap in Hin as (c & -> & Hc).
  pose proof (find_none _ _ Hnone c (proj1 (list_elem_of_In _ _) Hc)) as Hno.
  cbv beta in Hno. now rewrite str_eqb_refl in Hno.
Qed.

(** X19.  A view of a slug that no chapter has is inert: it shows the
    not-found card and no Previous or Next link, its effect and its button
    neither read nor write the storage nor dispatch an event, and so neither
    throws, whatever the storage holds. *)
Theorem unknown_slug_inert (parts : list CoursePart) (st : Storage)
  (view : ChapterContent) :
  getChapterBySlug parts (cc_slug view) = None ->
  ChapterContent_render parts (cc_slug view) = NotFoundScreen
  /\ ChapterContent_nav parts (cc_slug view) = (None, None)
  /\ ChapterContent_effect parts st view = Returns view
  /\ toggleCompleted parts st view = Returns (mkToggled st view []).
Proof.
  intros Hnone.
  pose proof (getChapterBySlug_None parts _ Hnone) as Hnot.
  unfold ChapterContent_render, ChapterContent_nav, ChapterContent_effect,
    toggleCompleted, getNextChapter, getPreviousChapter.
  cbv zeta. rewrite Hnone, (unknown_slug_position parts _ Hnot).
  repeat split.
Qed.

Lemma unknown_slug_inert_witness :
  let st : Storage := {[ completedChapters_key := js "not json" ]} in
  let view := ChapterContent_mount (js "does-not-exist") in
  ChapterContent_effect courseParts st view = Returns view
  /\ toggleCompleted courseParts st view = Returns (mkToggled st view []).
Proof.
  intros st view.
  destruct (unknown_slug_inert courseParts st view) as (_ & _ & H1 & H2).
  - vm_compute. reflexivity.
  - split; assumption.
Defined.
